(** * estrutura.py: the project-skeleton generator

    A shallow embedding of [src/estrutura.py].  The script walks a nested
    dictionary ([estrutura_projeto]) depth first and, for every entry,
    either calls [os.makedirs(caminho, exist_ok=True)] and recurses, or
    opens [caminho] in mode ['w'] inside a [with] block and writes the
    string.  The filesystem, the table of open file objects, standard
    output and the sequence of library calls attempted are explicit state;
    exceptions are an explicit [Raise] result next to the state reached.

    The library functions the script calls ([os.path.join], [os.makedirs],
    [open], [write], closing on leaving [with], [print]) are modelled with
    their documented POSIX behaviour: case-sensitive names, [/] as the only
    separator, no symbolic links, no newline translation in text mode. *)

From stdpp Require Import gmap list strings.
From Stdlib Require Import NArith.
From Stdlib.Strings Require Import Byte Ascii.

Open Scope N_scope.

(** ** Python strings

    A Python [str] is a sequence of Unicode code points. *)

Abbreviation str := (list N).

Definition SEP : N := 47.   (* "/" *)
Definition DOT : N := 46.   (* "." *)
Definition NUL : N := 0.

(** The source file is UTF-8 (Python's default source encoding): [py]
    reads a literal of this file, itself UTF-8, as the [str] the
    interpreter builds from it. *)

Fixpoint octets (s : string) : list N :=
  match s with
  | EmptyString => []
  | String a r => N_of_ascii a :: octets r
  end.

Fixpoint utf8_decode (bs : list N) : str :=
  match bs with
  | [] => []
  | b0 :: r =>
      if b0 <? 128 then b0 :: utf8_decode r
      else if b0 <? 224 then
        match r with
        | b1 :: r1 => ((b0 - 192) * 64 + (b1 - 128)) :: utf8_decode r1
        | _ => []
        end
      else if b0 <? 240 then
        match r with
        | b1 :: b2 :: r2 =>
            ((b0 - 224) * 4096 + (b1 - 128) * 64 + (b2 - 128)) :: utf8_decode r2
        | _ => []
        end
      else
        match r with
        | b1 :: b2 :: b3 :: r3 =>
            ((b0 - 240) * 262144 + (b1 - 128) * 4096 + (b2 - 128) * 64 + (b3 - 128))
              :: utf8_decode r3
        | _ => []
        end
  end.

Definition py (s : string) : str := utf8_decode (octets s).

(** ** Text encodings

    [open(caminho, 'w')] names no encoding, so the text layer encodes with
    the locale's preferred encoding.  Three of them are modelled. *)

Inductive codec := UTF8 | Latin1 | ASCII.

Definition octet (n : N) : byte :=
  match Byte.of_N n with Some b => b | None => x00 end.

Definition utf8_char (c : N) : option (list byte) :=
  if c <? 128 then Some [octet c]
  else if c <? 2048 then Some [octet (192 + c / 64); octet (128 + c mod 64)]
  else if (55296 <=? c) && (c <? 57344) then None          (* lone surrogate *)
  else if c <? 65536 then
    Some [octet (224 + c / 4096); octet (128 + (c / 64) mod 64); octet (128 + c mod 64)]
  else if c <? 1114112 then
    Some [octet (240 + c / 262144); octet (128 + (c / 4096) mod 64);
          octet (128 + (c / 64) mod 64); octet (128 + c mod 64)]
  else None.

Definition encode_char (k : codec) (c : N) : option (list byte) :=
  match k with
  | UTF8 => utf8_char c
  | Latin1 => if c <? 256 then Some [octet c] else None
  | ASCII => if c <? 128 then Some [octet c] else None
  end.

Fixpoint encode (k : codec) (s : str) : option (list byte) :=
  match s with
  | [] => Some []
  | c :: r =>
      match encode_char k c, encode k r with
      | Some b, Some bs => Some (b ++ bs)
      | _, _ => None
      end
  end.

(** ** Paths: [os.path.join] and the components of a path *)

Definition startswith_sep (p : str) : bool :=
  match p with c :: _ => c =? SEP | [] => false end.

Definition endswith_sep (p : str) : bool :=
  match last p with Some c => c =? SEP | None => false end.

(** [posixpath.join(a, b)] for one component [b]. *)
Definition join (a b : str) : str :=
  if startswith_sep b || bool_decide (a = []) then b
  else if endswith_sep a then a ++ b
  else a ++ SEP :: b.

(** The pieces between separators, empty pieces included. *)
Fixpoint split_sep (p : str) : list str :=
  match p with
  | [] => [[]]
  | c :: r =>
      if c =? SEP then [] :: split_sep r
      else match split_sep r with
           | w :: ws => (c :: w) :: ws
           | [] => [[c]]
           end
  end.

Definition has_nul (p : str) : bool := bool_decide (NUL ∈ p).
Definition is_dot (c : str) : bool := bool_decide (c = []) || bool_decide (c = [DOT]).
Definition is_dotdot (c : str) : bool := bool_decide (c = [DOT; DOT]).

(** A name is plain when it is a single path component: not empty, not [.]
    or [..], without separator and without NUL. *)
Definition plain_name (k : str) : bool :=
  negb (is_dot k) && negb (is_dotdot k) && negb (has_nul k) && bool_decide (SEP ∉ k).

(** ** The tree description

    A dictionary value is either a string (a file's text) or another
    dictionary.  A [dict] keeps its items in insertion order, which is the
    order [.items()] yields them; its keys are pairwise distinct. *)

Unset Elimination Schemes.
Inductive node :=
| File (conteudo : str)
| Dir (itens : list (str * node)).
Set Elimination Schemes.

Abbreviation dict := (list (str * node)).

(** The keys of a dictionary are pairwise distinct, at every level. *)
Fixpoint wf_node (v : node) : bool :=
  match v with
  | File _ => true
  | Dir d => bool_decide (NoDup d.*1) && forallb (λ kv, wf_node kv.2) d
  end.

Definition wf_dict (d : dict) : bool := wf_node (Dir d).

(** Every name of the tree is plain. *)
Fixpoint plain_node (v : node) : bool :=
  match v with
  | File _ => true
  | Dir d => forallb (λ kv, plain_name kv.1 && plain_node kv.2) d
  end.

Definition plain_dict (d : dict) : bool := plain_node (Dir d).

(** [at_path d path v]: following the names of [path] from the top of [d]
    leads to the value [v]. *)
Inductive at_path : dict → list str → node → Prop :=
| at_here d k v : (k, v) ∈ d → at_path d [k] v
| at_below d k d' path v :
    (k, Dir d') ∈ d → at_path d' path v → at_path d (k :: path) v.

(** The path string of a node: the base path joined with the names on the
    way, one [os.path.join] per level as the walk computes it. *)
Definition join_all (base_path : str) (path : list str) : str :=
  foldl join base_path path.

Definition estrutura_projeto : dict :=
  [ (py "package.json", File (py ""));
    (py "server.js", File (py "// Arquivo principal do servidor"));
    (py "config", Dir
       [ (py "database.js", File (py "// Configuração do SQLite")) ]);
    (py "routes", Dir
       [ (py "auth.js", File (py "// Rotas de autenticação"));
         (py "games.js", File (py "// Rotas de gerenciamento de jogos"));
         (py "users.js", File (py "// Rotas de gerenciamento de usuários")) ]);
    (py "services", Dir
       [ (py "wikipediaService.js", File (py "// Integração com a API da Wikipédia")) ]);
    (py "models", Dir
       [ (py "User.js", File (py "// Modelo de usuário"));
         (py "GameSession.js", File (py "// Modelo de sessão de jogo"));
         (py "PathHistory.js", File (py "// Modelo de histórico de percurso")) ]);
    (py "utils", Dir
       [ (py "auth.js", File (py "// Funções de autenticação"));
         (py "gameLogic.js", File (py "// Lógica do jogo")) ]) ].

Definition diretorio_base : str := py "./".


(** ** The filesystem

    A location is the list of names from the root directory down.  A
    directory carries a flag telling whether it is read-only (no entry can
    be created in it); a file carries its bytes.  The root always exists
    and is writable. *)

Abbreviation loc := (list str).

Inductive entry :=
| EDir (ro : bool)
| EFile (dados : list byte).

Definition parent (l : loc) : loc := removelast l.

Definition entry_at (m : gmap loc entry) (l : loc) : option entry :=
  match l with
  | [] => Some (EDir false)
  | _ => m !! l
  end.

Definition dir_at (m : gmap loc entry) (l : loc) : option bool :=
  match entry_at m l with
  | Some (EDir ro) => Some ro
  | _ => None
  end.

Inductive error :=
| FileNotFoundError
| FileExistsError
| NotADirectoryError
| IsADirectoryError
| PermissionError
| UnicodeEncodeError
| ValueError.

Inductive result (A : Type) :=
| Ok (a : A)
| Raise (e : error).
Arguments Ok {A} a.
Arguments Raise {A} e.

(** Name resolution, one component at a time as the kernel does it: an
    empty piece and [.] stay, [..] goes up, a name must be a directory. *)
Fixpoint walk (m : gmap loc entry) (cur : loc) (cs : list str) : result loc :=
  match cs with
  | [] => Ok cur
  | c :: cs' =>
      if is_dot c then walk m cur cs'
      else if is_dotdot c then walk m (parent cur) cs'
      else if has_nul c then Raise ValueError
      else match m !! (cur ++ [c]) with
           | Some (EDir _) => walk m (cur ++ [c]) cs'
           | Some (EFile _) => Raise NotADirectoryError
           | None => Raise FileNotFoundError
           end
  end.

(** [os.makedirs(_, exist_ok=True)] along the components of its argument:
    every missing directory on the way is created, an existing one is
    entered, a file in the way is an error.  The map reached is returned
    also on failure: directories made before the failing component stay. *)
Fixpoint mkdir_walk (cur : loc) (cs : list str) (m : gmap loc entry)
  : result unit * gmap loc entry :=
  match cs with
  | [] => (Ok tt, m)
  | c :: cs' =>
      if is_dot c then mkdir_walk cur cs' m
      else if is_dotdot c then mkdir_walk (parent cur) cs' m
      else if has_nul c then (Raise ValueError, m)
      else
        let l := cur ++ [c] in
        match m !! l with
        | Some (EDir _) => mkdir_walk l cs' m
        | Some (EFile _) =>
            (Raise (if forallb is_dot cs' then FileExistsError else NotADirectoryError), m)
        | None =>
            match dir_at m cur with
            | Some false => mkdir_walk l cs' (<[l := EDir false]> m)
            | Some true => (Raise PermissionError, m)
            | None => (Raise FileNotFoundError, m)
            end
        end
  end.

(** Where [open(_, 'w')] puts its file: the directory part must resolve to
    an existing directory; the last component must not name a directory,
    and when it names nothing yet the directory must be writable. *)
Definition target (from : loc) (p : str) (m : gmap loc entry) : result loc :=
  if has_nul p then Raise ValueError
  else if bool_decide (p = []) then Raise FileNotFoundError
  else
    let cs := split_sep p in
    match walk m from (removelast cs) with
    | Raise e => Raise e
    | Ok d =>
        let c := List.last cs [] in
        match dir_at m d with
        | None => Raise FileNotFoundError
        | Some ro =>
            if is_dot c || is_dotdot c then Raise IsADirectoryError
            else match m !! (d ++ [c]) with
                 | Some (EDir _) => Raise IsADirectoryError
                 | Some (EFile _) => Ok (d ++ [c])
                 | None => if ro then Raise PermissionError else Ok (d ++ [c])
                 end
        end
    end.

(** What a path names, for stating what is on disk ([os.stat]). *)
Definition stat (from : loc) (p : str) (m : gmap loc entry) : option entry :=
  if bool_decide (p = []) then None
  else
    let cs := split_sep p in
    match walk m from (removelast cs) with
    | Raise _ => None
    | Ok d =>
        let c := List.last cs [] in
        if is_dot c then entry_at m d
        else if is_dotdot c then entry_at m (parent d)
        else if has_nul c then None
        else m !! (d ++ [c])
    end.

(** ** Program state *)

Inductive event :=
| EvMakedirs (p : str)
| EvOpen (p : str)
| EvWrite (h : nat) (s : str)
| EvClose (h : nat)
| EvPrint (s : str).

Record state := State {
  fs : gmap loc entry;          (* the filesystem *)
  handles : gmap nat loc;       (* open file objects and the file each writes to *)
  next_handle : nat;
  stdout : list str;            (* lines printed *)
  trace : list event            (* library calls attempted, oldest first *)
}.

Definition M (A : Type) : Type := state → result A * state.

Definition ret {A} (a : A) : M A := fun s => (Ok a, s).

Definition bind {A B} (c : M A) (k : A → M B) : M B := fun s =>
  match c s with
  | (Ok a, s1) => k a s1
  | (Raise e, s1) => (Raise e, s1)
  end.

Notation "c >> k" := (bind c (fun _ => k))
  (at level 100, right associativity).

Definition emit (ev : event) (s : state) : state :=
  State (fs s) (handles s) (next_handle s) (stdout s) (trace s ++ [ev]).

Definition set_fs (m : gmap loc entry) (s : state) : state :=
  State m (handles s) (next_handle s) (stdout s) (trace s).

(** The process environment: the working directory and the locale's
    preferred encoding.  The script changes neither. *)
Record env := Env { cwd : loc; locale : codec }.

Section Script.

Variable E : env.

(** Where resolution of a path starts. *)
Definition start (p : str) : loc := if startswith_sep p then [] else cwd E.

Definition isdir (p : str) (m : gmap loc entry) : bool :=
  match stat (start p) p m with Some (EDir _) => true | _ => false end.

Definition read_bytes (p : str) (m : gmap loc entry) : option (list byte) :=
  match stat (start p) p m with Some (EFile bs) => Some bs | _ => None end.

(** [os.makedirs(p, exist_ok=True)] *)
Definition makedirs (p : str) : M unit := fun s =>
  let s := emit (EvMakedirs p) s in
  if bool_decide (p = []) then (Raise FileNotFoundError, s)
  else
    let '(r, m) := mkdir_walk (start p) (split_sep p) (fs s) in
    (r, set_fs m s).

(** [open(p, 'w')]: the file is created empty or truncated, and a new file
    object refers to it. *)
Definition open_w (p : str) : M nat := fun s =>
  let s := emit (EvOpen p) s in
  match target (start p) p (fs s) with
  | Raise e => (Raise e, s)
  | Ok l =>
      let h := next_handle s in
      (Ok h, State (<[l := EFile []]> (fs s)) (<[h := l]> (handles s)) (S h)
                   (stdout s) (trace s))
  end.

(** [arquivo.write(texto)] on a text file: encode, then append. *)
Definition write (h : nat) (texto : str) : M unit := fun s =>
  let s := emit (EvWrite h texto) s in
  match handles s !! h with
  | None => (Raise ValueError, s)
  | Some l =>
      match encode (locale E) texto with
      | None => (Raise UnicodeEncodeError, s)
      | Some bs =>
          match fs s !! l with
          | Some (EFile old) => (Ok tt, set_fs (<[l := EFile (old ++ bs)]> (fs s)) s)
          | _ => (Raise ValueError, s)
          end
      end
  end.

Definition close (h : nat) (s : state) : state :=
  let s := emit (EvClose h) s in
  State (fs s) (delete h (handles s)) (next_handle s) (stdout s) (trace s).

(** [with open(p, 'w') as arquivo: corpo]: when [open] raises there is
    nothing to release; otherwise the file object is closed on leaving the
    block, whether the body returned or raised, and the body's outcome is
    the outcome of the statement. *)
Definition with_open {A} (p : str) (corpo : nat → M A) : M A := fun s =>
  match open_w p s with
  | (Raise e, s1) => (Raise e, s1)
  | (Ok arquivo, s1) =>
      let '(r, s2) := corpo arquivo s1 in
      (r, close arquivo s2)
  end.

Definition print (linha : str) : M unit := fun s =>
  (Ok tt, State (fs s) (handles s) (next_handle s) (stdout s ++ [linha])
                (trace s ++ [EvPrint linha])).

(** ** The script *)

(** Lines 37 and 38: the branch taken for a string value. *)
Definition file_branch (caminho texto : str) : M unit :=
  with_open caminho (fun arquivo => write arquivo texto).

(** One iteration of the [for] loop of [criar_estrutura]. *)
Fixpoint criar_item (base_path nome : str) (conteudo : node) {struct conteudo} : M unit :=
  let caminho := join base_path nome in
  match conteudo with
  | Dir d =>
      makedirs caminho >>
      (fix itens (l : list (str * node)) : M unit :=
         match l with
         | [] => ret tt
         | (n, c) :: r => criar_item caminho n c >> itens r
         end) d
  | File texto => file_branch caminho texto
  end.

Fixpoint criar_estrutura (base_path : str) (estrutura : dict) : M unit :=
  match estrutura with
  | [] => ret tt
  | (nome, conteudo) :: r =>
      criar_item base_path nome conteudo >> criar_estrutura base_path r
  end.

Definition mensagem : str :=
  py "Estrutura do projeto '" ++ diretorio_base ++ py "' criada com sucesso!".

(** Lines 44 to 47. *)
Definition main : M unit :=
  makedirs diretorio_base >>
  criar_estrutura diretorio_base estrutura_projeto >>
  print mensagem.

(** ** The walk as a sequence of library calls

    [plan] lists, in traversal order, the calls [criar_estrutura] makes on
    a tree; [exec] makes them one after the other, stopping at the first
    that raises. *)

Inductive op :=
| OMakedirs (p : str)
| OWrite (p : str) (texto : str).

Definition op_path (o : op) : str :=
  match o with OMakedirs p => p | OWrite p _ => p end.

Definition run_op (o : op) : M unit :=
  match o with
  | OMakedirs p => makedirs p
  | OWrite p texto => file_branch p texto
  end.

Fixpoint exec (ops : list op) : M unit :=
  match ops with
  | [] => ret tt
  | o :: r => run_op o >> exec r
  end.

Fixpoint plan_item (base_path nome : str) (conteudo : node) {struct conteudo} : list op :=
  let caminho := join base_path nome in
  match conteudo with
  | Dir d =>
      OMakedirs caminho ::
      (fix itens (l : list (str * node)) : list op :=
         match l with
         | [] => []
         | (n, c) :: r => plan_item caminho n c ++ itens r
         end) d
  | File texto => [OWrite caminho texto]
  end.

Fixpoint plan (base_path : str) (estrutura : dict) : list op :=
  match estrutura with
  | [] => []
  | (nome, conteudo) :: r => plan_item base_path nome conteudo ++ plan base_path r
  end.

(** The effect of one call on the filesystem alone. *)
Definition fs_op (o : op) (m : gmap loc entry) : result unit * gmap loc entry :=
  match o with
  | OMakedirs p =>
      if bool_decide (p = []) then (Raise FileNotFoundError, m)
      else mkdir_walk (start p) (split_sep p) m
  | OWrite p texto =>
      match target (start p) p m with
      | Raise e => (Raise e, m)
      | Ok l =>
          match encode (locale E) texto with
          | None => (Raise UnicodeEncodeError, <[l := EFile []]> m)
          | Some bs => (Ok tt, <[l := EFile bs]> m)
          end
      end
  end.

Fixpoint fs_exec (ops : list op) (m : gmap loc entry) : result unit * gmap loc entry :=
  match ops with
  | [] => (Ok tt, m)
  | o :: r =>
      match fs_op o m with
      | (Ok _, m1) => fs_exec r m1
      | (Raise e, m1) => (Raise e, m1)
      end
  end.

End Script.

(** * Properties *)

(** ** Induction over tree descriptions *)

Lemma node_ind (P : node → Prop) :
  (∀ texto, P (File texto)) →
  (∀ d, Forall (λ kv, P kv.2) d → P (Dir d)) →
  ∀ v, P v.
Proof.
  intros HF HD. fix IH 1. intros [texto | d]; [apply HF |].
  apply HD. induction d as [| [k w] r IHr]; constructor; [apply IH | apply IHr].
Qed.

(** An outcome is the pair of its result and its state. *)
Lemma outcome_ok {A} (x : result A * state) (a : A) : x.1 = Ok a → x = (Ok a, x.2).
Proof. destruct x as [r s]. simpl. by intros ->. Qed.

Lemma outcome_raise {A} (x : result A * state) (e : error) :
  x.1 = Raise e → x = (Raise e, x.2).
Proof. destruct x as [r s]. simpl. by intros ->. Qed.

(** ** The walk is the execution of its plan *)

Section Plan.

Variable E : env.

Lemma bind_unfold {A B} (c : M A) (k : A → M B) s :
  bind c k s = match c s with
               | (Ok a, s1) => k a s1
               | (Raise e, s1) => (Raise e, s1)
               end.
Proof. reflexivity. Qed.

Lemma exec_app ops1 ops2 s :
  exec E (ops1 ++ ops2) s = (exec E ops1 >> exec E ops2) s.
Proof.
  revert s. induction ops1 as [| o r IH]; intros s; simpl.
  - reflexivity.
  - rewrite !bind_unfold. destruct (run_op E o s) as [[[] | e] s1]; [| reflexivity].
    rewrite IH. reflexivity.
Qed.

Lemma criar_item_plan v : ∀ base nome s,
  criar_item E base nome v s = exec E (plan_item base nome v) s.
Proof.
  induction v as [texto | d IH] using node_ind; intros base nome s.
  - simpl. rewrite bind_unfold.
    destruct (file_branch E (join base nome) texto s) as [[[] | e] s1]; reflexivity.
  - simpl. rewrite !bind_unfold.
    destruct (makedirs E (join base nome) s) as [[[] | e] s1]; [| reflexivity].
    generalize (join base nome) as caminho. intros caminho. revert s1.
    induction IH as [| [k w] r Hw _ IHr]; intros s1; [reflexivity |].
    rewrite exec_app, !bind_unfold. simpl in Hw. rewrite Hw.
    destruct (exec E (plan_item caminho k w) s1) as [[[] | e] s2]; [| reflexivity].
    apply IHr.
Qed.

Lemma criar_estrutura_plan d : ∀ base s,
  criar_estrutura E base d s = exec E (plan base d) s.
Proof.
  induction d as [| [k w] r IH]; intros base s; [reflexivity |].
  simpl. rewrite exec_app, !bind_unfold, criar_item_plan.
  destruct (exec E (plan_item base k w) s) as [[[] | e] s1]; [| reflexivity].
  apply IH.
Qed.

(** Each call acts on the filesystem as [fs_op] says, whatever the rest of
    the state. *)
Lemma file_branch_fs p texto s :
  (file_branch E p texto s).1 = (fs_op E (OWrite p texto) (fs s)).1 ∧
  fs (file_branch E p texto s).2 = (fs_op E (OWrite p texto) (fs s)).2.
Proof.
  unfold file_branch, with_open, open_w, fs_op. simpl.
  destruct (target (start E p) p (fs s)) as [l | e]; [| done].
  unfold write. simpl. rewrite lookup_insert_eq.
  destruct (encode (locale E) texto) as [bs |]; [| done].
  rewrite lookup_insert_eq. simpl. by rewrite insert_insert_eq.
Qed.

Lemma makedirs_fs p s :
  (makedirs E p s).1 = (fs_op E (OMakedirs p) (fs s)).1 ∧
  fs (makedirs E p s).2 = (fs_op E (OMakedirs p) (fs s)).2.
Proof.
  unfold makedirs, fs_op. simpl. case_bool_decide; [done |].
  by destruct (mkdir_walk _ _ _).
Qed.

Lemma run_op_fs o s :
  (run_op E o s).1 = (fs_op E o (fs s)).1 ∧
  fs (run_op E o s).2 = (fs_op E o (fs s)).2.
Proof. destruct o; [apply makedirs_fs | apply file_branch_fs]. Qed.

Lemma exec_fs ops : ∀ s,
  (exec E ops s).1 = (fs_exec E ops (fs s)).1 ∧
  fs (exec E ops s).2 = (fs_exec E ops (fs s)).2.
Proof.
  induction ops as [| o r IH]; intros s; [done |].
  simpl. rewrite bind_unfold.
  destruct (run_op_fs o s) as [H1 H2].
  destruct (run_op E o s) as [[[] | e] s1], (fs_op E o (fs s)) as [[[] | e'] m1];
    simpl in *; try discriminate; subst.
  - apply IH.
  - by injection H1 as ->.
Qed.

End Plan.

(** ** What the calls keep *)

(** An entry is never removed and never changes kind; a directory keeps
    its flag.  Only a file's bytes may change. *)
Definition erase (e : entry) : entry :=
  match e with
  | EDir ro => EDir ro
  | EFile _ => EFile []
  end.

Definition grows (m m' : gmap loc entry) : Prop :=
  ∀ l e, m !! l = Some e → ∃ e', m' !! l = Some e' ∧ erase e' = erase e.

Definition same_shape (m m' : gmap loc entry) : Prop :=
  ∀ l, erase <$> m !! l = erase <$> m' !! l.

Lemma grows_refl m : grows m m.
Proof. intros l e H. eauto. Qed.

Lemma grows_trans m1 m2 m3 : grows m1 m2 → grows m2 m3 → grows m1 m3.
Proof.
  intros H12 H23 l e H. destruct (H12 l e H) as (e2 & H2 & E2).
  destruct (H23 l e2 H2) as (e3 & H3 & E3). exists e3. split; [done | congruence].
Qed.

Lemma subseteq_grows (m m' : gmap loc entry) : m ⊆ m' → grows m m'.
Proof.
  intros Hsub l e H. exists e. split; [| done].
  by eapply lookup_weaken.
Qed.

Lemma grows_dir m m' l ro :
  grows m m' → m !! l = Some (EDir ro) → m' !! l = Some (EDir ro).
Proof.
  intros G H. destruct (G l _ H) as (e' & H' & Er).
  destruct e'; simpl in Er; [congruence | discriminate].
Qed.

Lemma grows_file m m' l bs :
  grows m m' → m !! l = Some (EFile bs) → ∃ bs', m' !! l = Some (EFile bs').
Proof.
  intros G H. destruct (G l _ H) as (e' & H' & Er).
  destruct e'; simpl in Er; [discriminate | eauto].
Qed.

Lemma grows_dir_at m m' l ro :
  grows m m' → dir_at m l = Some ro → dir_at m' l = Some ro.
Proof.
  unfold dir_at, entry_at. intros G. destruct l as [| c l]; [done |].
  destruct (m !! (c :: l)) as [[ro' | bs] |] eqn:H; simpl; try discriminate.
  intros [= ->]. by rewrite (grows_dir _ _ _ _ G H).
Qed.

Lemma grows_insert_file m l bs :
  (∀ ro, m !! l ≠ Some (EDir ro)) → grows m (<[l := EFile bs]> m).
Proof.
  intros Hnd l' e H. destruct (decide (l = l')) as [<- | Hne].
  - rewrite lookup_insert_eq. destruct e as [ro | bs0]; [by destruct (Hnd ro) |].
    eauto.
  - rewrite lookup_insert_ne by done. eauto.
Qed.

Lemma same_shape_grows m m' : same_shape m m' → grows m m'.
Proof.
  intros Hs l e H. specialize (Hs l). rewrite H in Hs. simpl in Hs.
  destruct (m' !! l) as [e' |]; [| discriminate]. simpl in Hs.
  exists e'. split; [done | congruence].
Qed.

Lemma same_shape_sym m m' : same_shape m m' → same_shape m' m.
Proof. intros H l. by rewrite H. Qed.

Lemma mkdir_walk_subseteq cs : ∀ cur m, m ⊆ (mkdir_walk cur cs m).2.
Proof.
  induction cs as [| c cs IH]; intros cur m; simpl; [done |].
  destruct (is_dot c); [apply IH |].
  destruct (is_dotdot c); [apply IH |].
  destruct (has_nul c); [done |].
  destruct (m !! (cur ++ [c])) as [[ro | bs] |] eqn:Hl; [apply IH | done |].
  destruct (dir_at m cur) as [[] |]; [done | | done].
  etrans; [| apply IH]. by apply insert_subseteq.
Qed.

Lemma walk_grows cs : ∀ m m' cur d,
  grows m m' → walk m cur cs = Ok d → walk m' cur cs = Ok d.
Proof.
  induction cs as [| c cs IH]; intros m m' cur d G; simpl; [done |].
  destruct (is_dot c); [by apply IH |].
  destruct (is_dotdot c); [by apply IH |].
  destruct (has_nul c); [done |].
  destruct (m !! (cur ++ [c])) as [[ro | bs] |] eqn:Hl; try done.
  rewrite (grows_dir _ _ _ _ G Hl). by apply IH.
Qed.

(** Where [open] succeeded there was no directory. *)
Lemma target_not_dir from p m l :
  target from p m = Ok l → ∀ ro, m !! l ≠ Some (EDir ro).
Proof.
  unfold target. destruct (has_nul p); [done |]. case_bool_decide; [done |].
  destruct (walk _ _ _) as [d | e]; [| done].
  destruct (dir_at m d) as [ro |]; [| done].
  destruct (_ || _); [done |].
  destruct (m !! (d ++ [_])) as [[ro' | bs] |] eqn:Hl; [done | |].
  - intros [= <-] ro'. by rewrite Hl.
  - destruct ro; [done |]. intros [= <-] ro'. by rewrite Hl.
Qed.

Lemma target_grows from p m m' l bs0 :
  grows m m' → target from p m = Ok l → m' !! l = Some (EFile bs0) →
  target from p m' = Ok l.
Proof.
  intros G. unfold target. destruct (has_nul p); [done |]. case_bool_decide; [done |].
  destruct (walk m _ _) as [d | e] eqn:Hw; [| done].
  rewrite (walk_grows _ _ _ _ _ G Hw).
  destruct (dir_at m d) as [ro |] eqn:Hd; [| done].
  rewrite (grows_dir_at _ _ _ _ G Hd).
  destruct (_ || _); [done |].
  destruct (m !! (d ++ [_])) as [[ro' | bs] |] eqn:Hl; [done | |].
  - intros [= <-] _. by destruct (grows_file _ _ _ _ G Hl) as [bs' ->].
  - destruct ro; [done |]. intros [= <-] He'. by rewrite He'.
Qed.

Section Keeps.

Variable E : env.

Lemma fs_op_grows o m : grows m (fs_op E o m).2.
Proof.
  destruct o as [p | p texto]; simpl.
  - case_bool_decide; [apply grows_refl |].
    apply subseteq_grows, mkdir_walk_subseteq.
  - destruct (target _ p m) as [l | e] eqn:Ht; [| apply grows_refl].
    pose proof (target_not_dir _ _ _ _ Ht) as Hnd.
    destruct (encode _ texto); simpl; by apply grows_insert_file.
Qed.

Lemma fs_exec_grows ops : ∀ m, grows m (fs_exec E ops m).2.
Proof.
  induction ops as [| o r IH]; intros m; simpl; [apply grows_refl |].
  pose proof (fs_op_grows o m) as G.
  destruct (fs_op E o m) as [[[] | e] m1]; simpl in *; [| done].
  eapply grows_trans; [done | apply IH].
Qed.

(** Once every directory a [makedirs] call made or entered is there, the
    call changes nothing. *)
Lemma mkdir_walk_noop cs : ∀ cur m m1 t,
  mkdir_walk cur cs m = (Ok tt, m1) → grows m1 t →
  mkdir_walk cur cs t = (Ok tt, t).
Proof.
  induction cs as [| c cs IH]; intros cur m m1 t; simpl; [done |].
  destruct (is_dot c); [apply IH |].
  destruct (is_dotdot c); [apply IH |].
  destruct (has_nul c); [done |].
  destruct (m !! (cur ++ [c])) as [[ro | bs] |] eqn:Hl; [| done |].
  - intros Hm G.
    pose proof (mkdir_walk_subseteq cs (cur ++ [c]) m) as Hsub.
    rewrite Hm in Hsub. simpl in Hsub.
    rewrite (grows_dir _ _ _ _ G (lookup_weaken _ _ _ _ Hl Hsub)). by eapply IH.
  - destruct (dir_at m cur) as [[] |]; [done | | done].
    intros Hm G.
    pose proof (mkdir_walk_subseteq cs (cur ++ [c]) (<[cur ++ [c] := EDir false]> m)) as Hsub.
    rewrite Hm in Hsub. simpl in Hsub.
    assert (m1 !! (cur ++ [c]) = Some (EDir false)) as H1.
    { eapply lookup_weaken; [| done]. apply lookup_insert_eq. }
    rewrite (grows_dir _ _ _ _ G H1). by eapply IH.
Qed.

(** Running a plan again from a filesystem that differs from where the
    first run ended only in the bytes of files the plan is still to write
    ends where the first run ended. *)
Lemma fs_exec_again ops : ∀ m mn t (W : gset loc),
  fs_exec E ops m = (Ok tt, mn) →
  same_shape mn t →
  (∀ l, l ∈ W → t !! l = m !! l) →
  (∀ l, l ∉ W → t !! l = mn !! l) →
  fs_exec E ops t = (Ok tt, mn).
Proof.
  induction ops as [| o r IH]; intros m mn t W; simpl.
  - intros [= <-] _ HW HnW. f_equal. apply map_eq. intros l.
    destruct (decide (l ∈ W)); auto.
  - destruct (fs_op E o m) as [[[] | e] m1] eqn:Ho; [| done].
    intros Hr Hs HW HnW.
    pose proof (fs_exec_grows r m1) as G1. rewrite Hr in G1. simpl in G1.
    pose proof (fs_op_grows o m) as G0. rewrite Ho in G0. simpl in G0.
    pose proof (same_shape_grows _ _ Hs) as Gs.
    destruct o as [p | p texto]; simpl in Ho |- *.
    + case_bool_decide; [done |].
      rewrite (mkdir_walk_noop _ _ _ _ t Ho) by (eapply grows_trans; done).
      apply (IH m1 mn t W); [done | done | | done].
      intros l Hl. rewrite (HW l Hl).
      destruct (m !! l) as [e |] eqn:Hm.
      * symmetry. eapply lookup_weaken; [done |].
        pose proof (mkdir_walk_subseteq (split_sep p) (start E p) m) as Hsub.
        by rewrite Ho in Hsub.
      * destruct (m1 !! l) as [e1 |] eqn:Hm1; [| done].
        destruct (G1 l e1 Hm1) as (e' & He' & _).
        specialize (Hs l). rewrite He', (HW l Hl), Hm in Hs. done.
    + destruct (target _ p m) as [w | e] eqn:Ht; [| done].
      destruct (encode _ texto) as [bs |]; [| done].
      injection Ho as <-.
      destruct (grows_file _ _ w bs G1 (lookup_insert_eq _ _ _)) as [bs1 Hn].
      destruct (grows_file _ _ w bs1 Gs Hn) as [bs2 Htw].
      rewrite (target_grows _ _ m t w bs2); [| by eapply grows_trans; [| done]; eapply grows_trans | done | done].
      apply (IH (<[w := EFile bs]> m) mn (<[w := EFile bs]> t) (W ∪ {[w]})); [done | | |].
      * intros l. destruct (decide (w = l)) as [<- | Hne].
        -- by rewrite Hn, lookup_insert_eq.
        -- by rewrite lookup_insert_ne, Hs.
      * intros l Hl. destruct (decide (w = l)) as [<- | Hne].
        -- by rewrite !lookup_insert_eq.
        -- rewrite !lookup_insert_ne by done. apply HW. set_solver.
      * intros l Hl. rewrite lookup_insert_ne by set_solver. apply HnW. set_solver.
Qed.

Lemma fs_exec_idempotent ops m mn :
  fs_exec E ops m = (Ok tt, mn) → fs_exec E ops mn = (Ok tt, mn).
Proof.
  intros H. apply (fs_exec_again ops m mn mn ∅); [done | done | set_solver | done].
Qed.

End Keeps.

(** ** Plain names

    Joining a plain name to a base path adds exactly that component. *)

Lemma split_sep_nonempty p : split_sep p ≠ [].
Proof.
  destruct p as [| c r]; simpl; [done |].
  destruct (c =? SEP); [done |]. by destruct (split_sep r).
Qed.

Lemma split_sep_plain k : SEP ∉ k → split_sep k = [k].
Proof.
  induction k as [| c r IH]; intros H; simpl; [done |].
  destruct (N.eqb_spec c SEP) as [-> | Hc]; [set_solver |].
  rewrite IH by set_solver. done.
Qed.

Lemma split_sep_app a b : split_sep (a ++ SEP :: b) = split_sep a ++ split_sep b.
Proof.
  induction a as [| c r IH]; simpl; [done |].
  rewrite IH. destruct (c =? SEP); [done |].
  pose proof (split_sep_nonempty r). by destruct (split_sep r).
Qed.

Lemma endswith_sep_inv a : endswith_sep a = true → ∃ a', a = a' ++ [SEP].
Proof.
  unfold endswith_sep. destruct (last a) as [c |] eqn:Hl; [| done].
  intros Hc%N.eqb_eq. subst c. by apply last_Some in Hl.
Qed.

Lemma plain_name_inv k :
  plain_name k = true →
  is_dot k = false ∧ is_dotdot k = false ∧ has_nul k = false ∧ (SEP ∉ k) ∧ k ≠ [].
Proof.
  unfold plain_name. rewrite !andb_true_iff, !negb_true_iff, bool_decide_eq_true.
  intros [[[H1 H2] H3] H4]. repeat split; try done.
  intros ->. done.
Qed.

(** The components of [join base k]: those of [base], up to a trailing
    empty piece, then [k]. *)
Lemma split_join base k :
  plain_name k = true →
  ∃ pre, split_sep (join base k) = pre ++ [k] ∧
         (split_sep base = pre ∨ split_sep base = pre ++ [[]]).
Proof.
  intros (_ & _ & _ & Hs & Hk)%plain_name_inv. unfold join.
  assert (startswith_sep k = false) as ->.
  { destruct k as [| c r]; [done |]. simpl. apply N.eqb_neq. set_solver. }
  simpl. case_bool_decide as Hb.
  - subst base. exists []. rewrite split_sep_plain by done. auto.
  - destruct (endswith_sep base) eqn:He.
    + apply endswith_sep_inv in He as [a' ->]. exists (split_sep a').
      rewrite <- (app_assoc a' [SEP] k). simpl.
      rewrite !split_sep_app, (split_sep_plain k) by done. auto.
    + exists (split_sep base). rewrite split_sep_app, (split_sep_plain k) by done. auto.
Qed.

Lemma join_nonempty base k : k ≠ [] → join base k ≠ [].
Proof.
  unfold join. intros Hk. destruct (_ || _) eqn:Hb; [done |].
  destruct (endswith_sep base); by destruct base.
Qed.


Section PlainNames.

Variable E : env.

Lemma start_join base k :
  plain_name k = true → start E (join base k) = start E base.
Proof.
  intros (_ & _ & _ & Hs & Hk)%plain_name_inv. unfold start, join.
  destruct k as [| c r]; [done |]. simpl.
  assert ((c =? SEP) = false) as -> by (apply N.eqb_neq; set_solver). simpl.
  case_bool_decide as Hb; simpl.
  - by subst; simpl; rewrite (proj2 (N.eqb_neq c SEP)) by set_solver.
  - destruct base as [| b0 br]; [done |]. by destruct (endswith_sep _).
Qed.

End PlainNames.

Lemma walk_app m cs1 : ∀ cur cs2,
  walk m cur (cs1 ++ cs2) =
  match walk m cur cs1 with
  | Ok d => walk m d cs2
  | Raise e => Raise e
  end.
Proof.
  induction cs1 as [| c cs IH]; intros cur cs2; simpl; [done |].
  destruct (is_dot c); [apply IH |].
  destruct (is_dotdot c); [apply IH |].
  destruct (has_nul c); [done |].
  destruct (m !! (cur ++ [c])) as [[ro | bs] |]; [apply IH | done | done].
Qed.

Lemma walk_snoc_empty m cur pre : walk m cur (pre ++ [[]]) = walk m cur pre.
Proof. rewrite walk_app. by destruct (walk m cur pre). Qed.

(** [makedirs] passes through what is already there. *)
Lemma mkdir_walk_through cs1 : ∀ m cur d cs2,
  walk m cur cs1 = Ok d →
  mkdir_walk cur (cs1 ++ cs2) m = mkdir_walk d cs2 m.
Proof.
  induction cs1 as [| c cs IH]; intros m cur d cs2; simpl; [by intros [= ->] |].
  destruct (is_dot c); [apply IH |].
  destruct (is_dotdot c); [apply IH |].
  destruct (has_nul c); [done |].
  destruct (m !! (cur ++ [c])) as [[ro | bs] |]; [apply IH | done | done].
Qed.

(** After a successful [makedirs] its whole path resolves. *)
Lemma mkdir_walk_resolves cs : ∀ cur m m1,
  mkdir_walk cur cs m = (Ok tt, m1) → ∃ d, walk m1 cur cs = Ok d.
Proof.
  induction cs as [| c cs IH]; intros cur m m1; simpl; [eauto |].
  destruct (is_dot c); [apply IH |].
  destruct (is_dotdot c); [apply IH |].
  destruct (has_nul c); [done |].
  destruct (m !! (cur ++ [c])) as [[ro | bs] |] eqn:Hl; [| done |].
  - intros Hm.
    pose proof (mkdir_walk_subseteq cs (cur ++ [c]) m) as Hsub.
    rewrite Hm in Hsub. simpl in Hsub.
    rewrite (lookup_weaken _ _ _ _ Hl Hsub). by eapply IH.
  - destruct (dir_at m cur) as [[] |]; [done | | done].
    intros Hm.
    pose proof (mkdir_walk_subseteq cs (cur ++ [c]) (<[cur ++ [c] := EDir false]> m)) as Hsub.
    rewrite Hm in Hsub. simpl in Hsub.
    rewrite (lookup_weaken _ _ (cur ++ [c]) (EDir false) (lookup_insert_eq _ _ _) Hsub).
    by eapply IH.
Qed.

(** ** The filesystem a successful walk leaves, for plain names

    [model b d m] is [m] with, for every node of [d] in traversal order,
    its entry put at the node's location below the directory [b]. *)

Definition ensure_dir (l : loc) (m : gmap loc entry) : gmap loc entry :=
  match m !! l with
  | Some (EDir _) => m
  | _ => <[l := EDir false]> m
  end.

Definition bytes_of (k : codec) (texto : str) : list byte :=
  default [] (encode k texto).

Fixpoint model_item (k : codec) (b : loc) (nome : str) (v : node)
    (m : gmap loc entry) {struct v} : gmap loc entry :=
  let l := b ++ [nome] in
  match v with
  | File texto => <[l := EFile (bytes_of k texto)]> m
  | Dir d =>
      (fix itens (lst : list (str * node)) (m : gmap loc entry) : gmap loc entry :=
         match lst with
         | [] => m
         | (n, c) :: r => itens r (model_item k l n c m)
         end) d (ensure_dir l m)
  end.

Fixpoint model (k : codec) (b : loc) (d : dict) (m : gmap loc entry) : gmap loc entry :=
  match d with
  | [] => m
  | (n, c) :: r => model k b r (model_item k b n c m)
  end.

Lemma model_item_dir k b nome d m :
  model_item k b nome (Dir d) m = model k (b ++ [nome]) d (ensure_dir (b ++ [nome]) m).
Proof.
  simpl. generalize (ensure_dir (b ++ [nome]) m). induction d as [| [n c] r IH]; intros m0.
  - done.
  - simpl. apply IH.
Qed.

Lemma plan_item_dir base nome d :
  plan_item base nome (Dir d) = OMakedirs (join base nome) :: plan (join base nome) d.
Proof.
  simpl. f_equal. induction d as [| [n c] r IH]; [done |]. simpl. by rewrite IH.
Qed.

Lemma plain_dict_cons k v r :
  plain_dict ((k, v) :: r) = plain_name k && plain_node v && plain_dict r.
Proof. reflexivity. Qed.


Section Model.

Variable E : env.

Definition resolves (base : str) (b : loc) (m : gmap loc entry) : Prop :=
  walk m (start E base) (split_sep base) = Ok b.

Lemma fs_exec_app ops1 ops2 m :
  fs_exec E (ops1 ++ ops2) m =
  match fs_exec E ops1 m with
  | (Ok _, m1) => fs_exec E ops2 m1
  | (Raise e, m1) => (Raise e, m1)
  end.
Proof.
  revert m. induction ops1 as [| o r IH]; intros m; simpl; [done |].
  destruct (fs_op E o m) as [[[] | e] m1]; [apply IH | done].
Qed.

Lemma fs_exec_cons o r m :
  fs_exec E (o :: r) m =
  match fs_op E o m with
  | (Ok _, m1) => fs_exec E r m1
  | (Raise e, m1) => (Raise e, m1)
  end.
Proof. reflexivity. Qed.

Lemma resolves_grows base b m m' : grows m m' → resolves base b m → resolves base b m'.
Proof. intros G H. by eapply walk_grows. Qed.

(** The directory part of [join base k] is [base]. *)
Lemma join_pre base k b m :
  plain_name k = true → resolves base b m →
  ∃ pre, split_sep (join base k) = pre ++ [k] ∧
         walk m (start E (join base k)) pre = Ok b.
Proof.
  intros Hk Hb. destruct (split_join base k Hk) as (pre & Hs & Hp).
  exists pre. split; [done |]. rewrite start_join by done.
  unfold resolves in Hb. destruct Hp as [Hp | Hp]; rewrite Hp in Hb; [done |].
  by rewrite walk_snoc_empty in Hb.
Qed.

Lemma resolves_join base k b m ro :
  plain_name k = true → resolves base b m → m !! (b ++ [k]) = Some (EDir ro) →
  resolves (join base k) (b ++ [k]) m.
Proof.
  intros Hk Hb Hl. destruct (join_pre base k b m Hk Hb) as (pre & Hs & Hw).
  unfold resolves. rewrite Hs, walk_app, Hw. simpl.
  destruct (plain_name_inv k Hk) as (-> & -> & -> & _). by rewrite Hl.
Qed.

Lemma stat_join base k b m :
  plain_name k = true → resolves base b m →
  stat (start E (join base k)) (join base k) m = m !! (b ++ [k]).
Proof.
  intros Hk Hb. destruct (join_pre base k b m Hk Hb) as (pre & Hs & Hw).
  destruct (plain_name_inv k Hk) as (Hd & Hdd & Hn & _ & Hne).
  unfold stat. rewrite bool_decide_eq_false_2 by by apply join_nonempty.
  rewrite Hs, removelast_last, Hw, last_last, Hd, Hdd, Hn. done.
Qed.

Lemma write_plain base k texto b m m1 :
  plain_name k = true → resolves base b m →
  fs_op E (OWrite (join base k) texto) m = (Ok tt, m1) →
  m1 = <[b ++ [k] := EFile (bytes_of (locale E) texto)]> m.
Proof.
  intros Hk Hb. destruct (join_pre base k b m Hk Hb) as (pre & Hs & Hw).
  destruct (plain_name_inv k Hk) as (Hd & Hdd & Hn & _ & Hne).
  simpl. unfold target, bytes_of.
  destruct (has_nul (join base k)); [done |].
  case_bool_decide; [done |].
  rewrite Hs, removelast_last, Hw, last_last, Hd, Hdd. simpl.
  destruct (dir_at m b) as [ro |]; [| done].
  destruct (m !! (b ++ [k])) as [[ro' | bs] |]; [done | |].
  - destruct (encode _ texto); [| done]. by intros [= <-].
  - destruct ro; [done |]. destruct (encode _ texto); [| done]. by intros [= <-].
Qed.

Lemma makedirs_plain base k b m m1 :
  plain_name k = true → resolves base b m →
  fs_op E (OMakedirs (join base k)) m = (Ok tt, m1) →
  m1 = ensure_dir (b ++ [k]) m ∧ resolves (join base k) (b ++ [k]) m1.
Proof.
  intros Hk Hb. destruct (join_pre base k b m Hk Hb) as (pre & Hs & Hw).
  destruct (plain_name_inv k Hk) as (Hd & Hdd & Hn & _ & Hne).
  simpl. case_bool_decide; [done |].
  rewrite Hs, (mkdir_walk_through pre m _ b [k] Hw). simpl.
  rewrite Hd, Hdd, Hn. unfold ensure_dir.
  destruct (m !! (b ++ [k])) as [[ro | bs] |] eqn:Hl; [| done |].
  - intros [= <-]. split; [done |]. by eapply resolves_join.
  - destruct (dir_at m b) as [[] |]; [done | | done].
    intros [= <-]. split; [done |].
    eapply resolves_join; [done | | apply lookup_insert_eq].
    eapply resolves_grows; [| done]. apply subseteq_grows. by apply insert_subseteq.
Qed.

Lemma run_model_item v : ∀ base nome b m m1,
  plain_name nome && plain_node v = true → resolves base b m →
  fs_exec E (plan_item base nome v) m = (Ok tt, m1) →
  m1 = model_item (locale E) b nome v m.
Proof.
  induction v as [texto | d IH] using node_ind; intros base nome b m m1.
  - intros [Hk _]%andb_true_iff Hb.
    change (plan_item base nome (File texto)) with [OWrite (join base nome) texto].
    rewrite fs_exec_cons.
    destruct (fs_op E (OWrite (join base nome) texto) m) as [[[] | e] m2] eqn:Ho; [| done].
    intros [= <-]. by eapply write_plain.
  - intros [Hk Hd]%andb_true_iff Hb.
    rewrite plan_item_dir, model_item_dir, fs_exec_cons.
    destruct (fs_op E (OMakedirs (join base nome)) m) as [[[] | e] m2] eqn:Ho; [| done].
    destruct (makedirs_plain _ _ _ _ _ Hk Hb Ho) as [-> Hb'].
    revert Hb'. generalize (ensure_dir (b ++ [nome]) m) as m0.
    generalize (join base nome) as caminho. generalize (b ++ [nome]) as b'.
    clear Ho Hb Hk. revert Hd m1.
    induction IH as [| [n w] r Hw _ IHr]; intros Hd m1 b' caminho m0 Hb'; simpl.
    + by intros [= <-].
    + change (plain_dict ((n, w) :: r) = true) in Hd.
      rewrite plain_dict_cons in Hd. apply andb_true_iff in Hd as [Hnw Hr].
      rewrite fs_exec_app.
      destruct (fs_exec E (plan_item caminho n w) m0) as [[[] | e] m2] eqn:Hx; [| done].
      simpl in Hw. rewrite (Hw caminho n b' m0 m2 Hnw Hb' Hx).
      apply IHr; [done |].
      eapply resolves_grows; [| done].
      pose proof (fs_exec_grows E (plan_item caminho n w) m0) as G.
      rewrite Hx in G. simpl in G. by rewrite (Hw caminho n b' m0 m2 Hnw Hb' Hx) in G.
Qed.

Lemma run_model d : ∀ base b m m1,
  plain_dict d = true → resolves base b m →
  fs_exec E (plan base d) m = (Ok tt, m1) →
  m1 = model (locale E) b d m.
Proof.
  induction d as [| [n w] r IH]; intros base b m m1 Hd Hb; simpl.
  - by intros [= <-].
  - rewrite plain_dict_cons in Hd. apply andb_true_iff in Hd as [Hnw Hr].
    rewrite fs_exec_app.
    destruct (fs_exec E (plan_item base n w) m) as [[[] | e] m2] eqn:Hx; [| done].
    pose proof (fs_exec_grows E (plan_item base n w) m) as G.
    rewrite Hx in G. simpl in G.
    rewrite <- (run_model_item w base n b m m2 Hnw Hb Hx).
    apply IH; [done |]. by eapply resolves_grows.
Qed.

End Model.

(** ** What the model holds *)

(** The paths of all nodes of a tree, in traversal order. *)
Fixpoint paths_item (nome : str) (v : node) {struct v} : list (list str) :=
  [nome] ::
  match v with
  | File _ => []
  | Dir d =>
      (nome ::.) <$>
      (fix itens (l : list (str * node)) : list (list str) :=
         match l with
         | [] => []
         | (n, c) :: r => paths_item n c ++ itens r
         end) d
  end.

Fixpoint paths (d : dict) : list (list str) :=
  match d with
  | [] => []
  | (n, c) :: r => paths_item n c ++ paths r
  end.

Lemma paths_item_dir nome d :
  paths_item nome (Dir d) = [nome] :: ((nome ::.) <$> paths d).
Proof.
  reflexivity.
Qed.

Lemma paths_item_head nome v path :
  path ∈ paths_item nome v → ∃ q, path = nome :: q.
Proof.
  destruct v as [texto | d].
  - simpl. intros ->%list_elem_of_singleton. eauto.
  - rewrite paths_item_dir, elem_of_cons, list_elem_of_fmap.
    intros [-> | (q & -> & _)]; eauto.
Qed.

Lemma paths_head d path : path ∈ paths d → ∃ n q, path = n :: q ∧ n ∈ d.*1.
Proof.
  induction d as [| [n c] r IH]; simpl; [by intros ?%elem_of_nil |].
  rewrite elem_of_app. intros [H | H].
  - destruct (paths_item_head _ _ _ H) as [q ->]. exists n, q. split; [done | left].
  - destruct (IH H) as (n' & q & -> & Hn). exists n', q. split; [done | by right].
Qed.

Lemma at_path_paths d path v : at_path d path v → path ∈ paths d.
Proof.
  induction 1 as [d k v Hin | d k d' path v Hin _ IH].
  - induction d as [| [n c] r IHd]; [by apply elem_of_nil in Hin |].
    simpl. rewrite elem_of_app. apply elem_of_cons in Hin as [[= <- <-] | Hin].
    + left. destruct v; simpl; left.
    + right. by apply IHd.
  - induction d as [| [n c] r IHd]; [by apply elem_of_nil in Hin |].
    simpl. rewrite elem_of_app. apply elem_of_cons in Hin as [[= <- <-] | Hin].
    + left. rewrite paths_item_dir. right. apply list_elem_of_fmap. eauto.
    + right. by apply IHd.
Qed.

Lemma ensure_dir_ne l l' m : l ≠ l' → ensure_dir l m !! l' = m !! l'.
Proof.
  intros Hne. unfold ensure_dir.
  destruct (m !! l) as [[ro | bs] |]; [done | |]; by rewrite lookup_insert_ne.
Qed.

Lemma ensure_dir_eq l m : ∃ ro, ensure_dir l m !! l = Some (EDir ro).
Proof.
  unfold ensure_dir. destruct (m !! l) as [[ro | bs] |] eqn:H; [eauto | |];
    rewrite lookup_insert_eq; eauto.
Qed.

Lemma model_app k b d1 d2 m :
  model k b (d1 ++ d2) m = model k b d2 (model k b d1 m).
Proof.
  revert m. induction d1 as [| [n c] r IH]; intros m; simpl; [done | apply IH].
Qed.

Lemma model_cons k b n c r m :
  model k b ((n, c) :: r) m = model k b r (model_item k b n c m).
Proof. reflexivity. Qed.

(** Only the locations of the tree's nodes are touched. *)
Lemma model_frame_aux k d :
  Forall (λ kv, ∀ b nome m l,
            l ∉ (b ++.) <$> paths_item nome kv.2 →
            model_item k b nome kv.2 m !! l = m !! l) d →
  ∀ b m l, l ∉ (b ++.) <$> paths d → model k b d m !! l = m !! l.
Proof.
  induction 1 as [| [n c] r Hc _ IH]; intros b m l Hl; simpl; [done |].
  simpl in Hl, Hc. rewrite fmap_app, not_elem_of_app in Hl. destruct Hl as [Hl1 Hl2].
  rewrite IH by done. by apply Hc.
Qed.

Lemma model_item_frame k v : ∀ b nome m l,
  l ∉ (b ++.) <$> paths_item nome v → model_item k b nome v m !! l = m !! l.
Proof.
  induction v as [texto | d IH] using node_ind; intros b nome m l.
  - simpl. rewrite list_elem_of_singleton. intros Hne. by rewrite lookup_insert_ne.
  - rewrite paths_item_dir, model_item_dir, fmap_cons, not_elem_of_cons.
    intros [Hne Hl]. rewrite (model_frame_aux k d IH).
    + by apply ensure_dir_ne.
    + intros (q & -> & Hq)%list_elem_of_fmap. apply Hl.
      apply list_elem_of_fmap. exists (nome :: q). split.
      * by rewrite <- app_assoc.
      * apply list_elem_of_fmap. eauto.
Qed.

Lemma model_frame k d b m l :
  l ∉ (b ++.) <$> paths d → model k b d m !! l = m !! l.
Proof.
  apply model_frame_aux. apply Forall_forall. intros kv _ b' nome m' l'.
  apply model_item_frame.
Qed.

Lemma model_changed k d b m l :
  model k b d m !! l ≠ m !! l → ∃ path, path ∈ paths d ∧ l = b ++ path.
Proof.
  intros Hne. destruct (decide (l ∈ (b ++.) <$> paths d)) as [Hin | Hnin].
  - apply list_elem_of_fmap in Hin as (path & -> & Hp). eauto.
  - destruct Hne. by apply model_frame.
Qed.

Lemma model_frame_keys k d b m l :
  (∀ n, n ∈ d.*1 → ¬ (b ++ [n]) `prefix_of` l) → model k b d m !! l = m !! l.
Proof.
  intros H. apply model_frame. intros (path & -> & Hp)%list_elem_of_fmap.
  destruct (paths_head _ _ Hp) as (n & q & -> & Hn). apply (H n Hn).
  exists q. by rewrite <- app_assoc.
Qed.

Lemma prefix_snoc_inv (b : loc) n k q :
  (b ++ [n]) `prefix_of` (b ++ k :: q) → n = k.
Proof.
  intros [r Hr]. rewrite <- !app_assoc in Hr.
  apply app_inv_head in Hr. by injection Hr.
Qed.

Lemma wf_dict_app d1 k v d2 :
  wf_dict (d1 ++ (k, v) :: d2) = true →
  (k ∉ d2.*1) ∧ wf_node v = true.
Proof.
  unfold wf_dict. simpl. rewrite andb_true_iff, bool_decide_eq_true, forallb_app.
  rewrite fmap_app, fmap_cons. simpl. rewrite andb_true_iff.
  intros [Hnd [_ [Hv _]%andb_true_iff]].
  apply NoDup_app in Hnd as (_ & _ & Hnd). apply NoDup_cons in Hnd as [Hk _].
  done.
Qed.

Lemma model_at d path v :
  at_path d path v → wf_dict d = true →
  ∀ k b m,
    match v with
    | File texto => model k b d m !! (b ++ path) = Some (EFile (bytes_of k texto))
    | Dir _ => ∃ ro, model k b d m !! (b ++ path) = Some (EDir ro)
    end.
Proof.
  induction 1 as [d k0 v Hin | d k0 d' path v Hin _ IH]; intros Hwf k b m.
  - apply list_elem_of_split in Hin as (d1 & d2 & ->).
    destruct (wf_dict_app _ _ _ _ Hwf) as [Hk Hv].
    rewrite model_app, model_cons.
    assert (∀ m0, model k b d2 m0 !! (b ++ [k0]) = m0 !! (b ++ [k0])) as Hfr.
    { intros m0. apply model_frame_keys. intros n Hn Hp.
      apply prefix_snoc_inv in Hp. by subst. }
    rewrite Hfr. destruct v as [texto | dv].
    + simpl. apply lookup_insert_eq.
    + rewrite model_item_dir, model_frame_keys; [apply ensure_dir_eq |].
      intros n _ [r Hr]. apply (f_equal length) in Hr.
      rewrite !length_app in Hr. simpl in Hr. lia.
  - apply list_elem_of_split in Hin as (d1 & d2 & ->).
    destruct (wf_dict_app _ _ _ _ Hwf) as [Hk Hv].
    rewrite model_app, model_cons.
    assert (∀ m0, model k b d2 m0 !! (b ++ k0 :: path) = m0 !! (b ++ k0 :: path)) as Hfr.
    { intros m0. apply model_frame_keys. intros n Hn Hp.
      apply prefix_snoc_inv in Hp. by subst. }
    specialize (IH Hv k (b ++ [k0])). rewrite <- !app_assoc in IH. simpl in IH.
    destruct v; [rewrite Hfr | setoid_rewrite Hfr]; rewrite model_item_dir; apply IH.
Qed.

(** ** A base path that is not there yet

    The first call of a successful walk makes the base path resolve: a
    [makedirs] creates it on the way, an [open] needs it. *)

Lemma mkdir_walk_app cs1 : ∀ cur cs2 m m1,
  mkdir_walk cur (cs1 ++ cs2) m = (Ok tt, m1) →
  ∃ m0 d, m ⊆ m0 ∧ walk m0 cur cs1 = Ok d ∧ mkdir_walk d cs2 m0 = (Ok tt, m1).
Proof.
  induction cs1 as [| c cs IH]; intros cur cs2 m m1; simpl.
  - intros H. by exists m, cur.
  - destruct (is_dot c); [apply IH |].
    destruct (is_dotdot c); [apply IH |].
    destruct (has_nul c); [done |].
    destruct (m !! (cur ++ [c])) as [[ro | bs] |] eqn:Hl; [| done |].
    + intros (m0 & d & Hsub & Hw & Hm)%IH. exists m0, d.
      by rewrite (lookup_weaken _ _ _ _ Hl Hsub).
    + destruct (dir_at m cur) as [[] |]; [done | | done].
      intros (m0 & d & Hsub & Hw & Hm)%IH. exists m0, d.
      rewrite (lookup_weaken _ _ (cur ++ [c]) (EDir false) (lookup_insert_eq _ _ _) Hsub).
      split; [| done]. etrans; [| done]. by apply insert_subseteq.
Qed.

Section Base.

Variable E : env.

Lemma resolves_of_pre base k pre d m :
  plain_name k = true →
  (split_sep base = pre ∨ split_sep base = pre ++ [[]]) →
  walk m (start E (join base k)) pre = Ok d →
  resolves E base d m.
Proof.
  intros Hk Hp Hw. rewrite start_join in Hw by done. unfold resolves.
  destruct Hp as [-> | ->]; [done |]. by rewrite walk_snoc_empty.
Qed.

Lemma split_join_unique base k pre pre' :
  split_sep (join base k) = pre ++ [k] → split_sep (join base k) = pre' ++ [k] →
  pre = pre'.
Proof. intros -> H. by apply app_inj_tail in H as [-> _]. Qed.

Lemma base_resolves k v r base m m1 :
  plain_name k = true →
  fs_exec E (plan base ((k, v) :: r)) m = (Ok tt, m1) →
  ∃ b m0, m ⊆ m0 ∧ resolves E base b m0 ∧
          fs_exec E (plan base ((k, v) :: r)) m0 = (Ok tt, m1).
Proof.
  intros Hk. destruct (split_join base k Hk) as (pre & Hs & Hp).
  change (plan base ((k, v) :: r)) with (plan_item base k v ++ plan base r).
  destruct v as [texto | d].
  - change (plan_item base k (File texto)) with [OWrite (join base k) texto].
    simpl. intros H.
    destruct (target _ (join base k) m) as [l | e] eqn:Ht; [| done].
    assert (∃ b, resolves E base b m) as [b Hb]; [| by exists b, m; rewrite Ht].
    unfold target in Ht. destruct (has_nul _); [done |].
    case_bool_decide; [done |]. rewrite Hs, removelast_last in Ht.
    destruct (walk m _ pre) as [b |] eqn:Hw; [| done].
    exists b. by eapply resolves_of_pre.
  - rewrite plan_item_dir. simpl app. rewrite !fs_exec_cons.
    destruct (fs_op E (OMakedirs (join base k)) m) as [[[] | e] m2] eqn:Ho; [| done].
    intros Hr. simpl in Ho. case_bool_decide as Hne; [done |].
    rewrite Hs in Ho. apply mkdir_walk_app in Ho as (m0 & b & Hsub & Hw & Hm).
    exists b, m0. split; [done |]. split; [by eapply resolves_of_pre |].
    rewrite fs_exec_cons. simpl fs_op. rewrite bool_decide_eq_false_2 by done.
    by rewrite Hs, (mkdir_walk_through pre m0 _ b [k] Hw), Hm.
Qed.

(** A successful walk encoded every text it wrote. *)
Lemma fs_exec_encodes ops : ∀ m m1 p texto,
  fs_exec E ops m = (Ok tt, m1) → OWrite p texto ∈ ops →
  is_Some (encode (locale E) texto).
Proof.
  induction ops as [| o r IH]; intros m m1 p texto; [by intros _ ?%elem_of_nil |].
  rewrite fs_exec_cons, elem_of_cons.
  destruct (fs_op E o m) as [[[] | e] m2] eqn:Ho; [| done].
  intros Hr [<- | Hin]; [| by eapply IH].
  simpl in Ho. destruct (target _ p m); [| done].
  by destruct (encode _ texto).
Qed.

Lemma plan_elem base d k v o :
  (k, v) ∈ d → o ∈ plan_item base k v → o ∈ plan base d.
Proof.
  induction d as [| [n c] r IH]; [by intros ?%elem_of_nil |].
  intros [[= <- <-] | Hin]%elem_of_cons Ho; simpl; rewrite elem_of_app; auto.
Qed.

Lemma at_path_plan d path texto :
  at_path d path (File texto) → ∀ base, ∃ p, OWrite p texto ∈ plan base d.
Proof.
  remember (File texto) as v eqn:Hv.
  induction 1 as [d k v Hin | d k d' path v Hin _ IH]; intros base; subst v.
  - exists (join base k). eapply plan_elem; [done |]. left.
  - destruct (IH eq_refl (join base k)) as [p Hp]. exists p.
    eapply plan_elem; [done |]. rewrite plan_item_dir. by right.
Qed.

End Base.

Lemma plain_dict_elem d k v :
  plain_dict d = true → (k, v) ∈ d → plain_name k = true ∧ plain_node v = true.
Proof.
  unfold plain_dict. simpl. rewrite forallb_forall. intros H Hin.
  apply andb_true_iff, (H (k, v)). by apply list_elem_of_In.
Qed.

(** * The claims *)

(** [materialized E base d m]: every directory node of [d] is a directory
    of [m] at its joined path, and every file node is a file there whose
    bytes are its text, encoded. *)
Definition materialized (E : env) (base : str) (d : dict) (m : gmap loc entry) : Prop :=
  ∀ path v, at_path d path v →
    match v with
    | Dir _ => isdir E (join_all base path) m = true
    | File texto =>
        ∃ bs, encode (locale E) texto = Some bs ∧
              read_bytes E (join_all base path) m = Some bs
    end.

Section Walk.

Variable E : env.

Lemma stat_at d path v :
  at_path d path v → plain_dict d = true →
  ∀ base b m,
    resolves E base b m →
    (∀ path' d', at_path d path' (Dir d') → ∃ ro, m !! (b ++ path') = Some (EDir ro)) →
    stat (start E (join_all base path)) (join_all base path) m = m !! (b ++ path).
Proof.
  induction 1 as [d k v Hin | d k d' path v Hin _ IH]; intros Hp base b m Hb Hdirs.
  - destruct (plain_dict_elem _ _ _ Hp Hin) as [Hk _]. by apply stat_join.
  - destruct (plain_dict_elem _ _ _ Hp Hin) as [Hk Hd'].
    destruct (Hdirs [k] d' (at_here _ _ _ Hin)) as [ro Hro].
    change (join_all base (k :: path)) with (join_all (join base k) path).
    rewrite (IH Hd' (join base k) (b ++ [k]) m).
    + by rewrite <- app_assoc.
    + by eapply resolves_join.
    + intros path' d'' Hat. rewrite <- app_assoc.
      apply (Hdirs (k :: path') d''). by eapply at_below.
Qed.

Lemma walk_ok base d s s' :
  criar_estrutura E base d s = (Ok tt, s') →
  fs_exec E (plan base d) (fs s) = (Ok tt, fs s').
Proof.
  intros H. rewrite criar_estrutura_plan in H.
  destruct (exec_fs E (plan base d) s) as [H1 H2]. rewrite H in H1, H2. simpl in *.
  destruct (fs_exec E (plan base d) (fs s)) as [r m]. simpl in *. by subst.
Qed.

(** The filesystem a successful walk over plain names leaves. *)
Lemma walk_model base d s s' :
  plain_dict d = true → d ≠ [] →
  criar_estrutura E base d s = (Ok tt, s') →
  ∃ b m0, fs s ⊆ m0 ∧ resolves E base b m0 ∧
          fs s' = model (locale E) b d m0 ∧ resolves E base b (fs s').
Proof.
  intros Hp Hne H%walk_ok. destruct d as [| [k v] r]; [done |].
  destruct (plain_dict_elem _ k v Hp) as [Hk _]; [left |].
  destruct (base_resolves E k v r base _ _ Hk H) as (b & m0 & Hsub & Hb & Hx).
  exists b, m0. split; [done |]. split; [done |].
  pose proof (fs_exec_grows E (plan base ((k, v) :: r)) m0) as G.
  rewrite Hx in G. simpl in G.
  split; [by eapply run_model | by eapply resolves_grows].
Qed.

Lemma walk_materialized base d s s' :
  wf_dict d = true → plain_dict d = true →
  criar_estrutura E base d s = (Ok tt, s') →
  materialized E base d (fs s').
Proof.
  intros Hwf Hp Hrun path v Hat.
  assert (d ≠ []) as Hne by (intros ->; inversion Hat as [? ? ? Hin | ? ? ? ? ? Hin];
                              by apply elem_of_nil in Hin).
  destruct (walk_model base d s s' Hp Hne Hrun) as (b & m0 & _ & _ & Hfs & Hb).
  assert (stat (start E (join_all base path)) (join_all base path) (fs s')
          = fs s' !! (b ++ path)) as Hst.
  { eapply stat_at; [done | done | done |]. intros path' d' Hat'.
    rewrite Hfs. apply (model_at d path' (Dir d') Hat' Hwf). }
  pose proof (model_at d path v Hat Hwf (locale E) b m0) as Hm. rewrite <- Hfs in Hm.
  destruct v as [texto | dv].
  - destruct (at_path_plan d path texto Hat base) as [p Hin].
    destruct (fs_exec_encodes E _ _ _ _ _ (walk_ok _ _ _ _ Hrun) Hin) as [bs Hbs].
    exists bs. split; [done |]. unfold read_bytes. rewrite Hst, Hm.
    unfold bytes_of. by rewrite Hbs.
  - destruct Hm as [ro Hm]. unfold isdir. by rewrite Hst, Hm.
Qed.

(** C1, amended: when every name of the tree is a plain path component and
    [criar_estrutura] returns without raising, every directory node is a
    directory at the base path joined with the names leading to it, and
    every file node is a file at its joined path holding its text, encoded. *)
Theorem criar_estrutura_materializes base d s s' :
  wf_dict d = true → plain_dict d = true →
  criar_estrutura E base d s = (Ok tt, s') →
  materialized E base d (fs s').
Proof. apply walk_materialized. Qed.

End Walk.

Definition vazio : state := State ∅ ∅ 0 [] [].

(** C1 as stated fails: two keys that name the same file.  The walk returns
    normally, and the file of the first node holds the second node's text. *)
Lemma criar_estrutura_same_target :
  let E := Env [] UTF8 in
  let d := [ (py "a.txt", File (py "x")); (py "./a.txt", File (py "y")) ] in
  wf_dict d = true ∧
  (criar_estrutura E (py "./") d vazio).1 = Ok tt ∧
  ¬ materialized E (py "./") d (fs (criar_estrutura E (py "./") d vazio).2).
Proof.
  split; [by vm_compute |]. split; [by vm_compute |].
  intros H. specialize (H [py "a.txt"] (File (py "x"))). simpl in H.
  destruct H as (bs & Hbs & Hread).
  - apply at_here. left.
  - vm_compute in Hbs, Hread. congruence.
Qed.

Lemma criar_estrutura_materializes_witness :
  let E := Env [] UTF8 in
  let d := [ (py "a.txt", File (py "hello")); (py "sub", Dir [ (py "b.txt", File (py "")) ]) ] in
  let s := (makedirs E (py "./out") vazio).2 in
  materialized E (py "./out") d (fs (criar_estrutura E (py "./out") d s).2).
Proof.
  intros E d s. apply (criar_estrutura_materializes E (py "./out") d s).
  - vm_compute. reflexivity.
  - vm_compute. reflexivity.
  - apply (outcome_ok (criar_estrutura E (py "./out") d s) tt). vm_compute. reflexivity.
Defined.

(** ** The script's own tree *)

Fixpoint find (k : str) (d : dict) : option node :=
  match d with
  | [] => None
  | (n, c) :: r => if bool_decide (n = k) then Some c else find k r
  end.

Fixpoint descend (d : dict) (path : list str) : option node :=
  match path with
  | [] => None
  | k :: rest =>
      match rest, find k d with
      | [], v => v
      | _, Some (Dir d') => descend d' rest
      | _, _ => None
      end
  end.

Lemma find_elem k d v : find k d = Some v → (k, v) ∈ d.
Proof.
  induction d as [| [n c] r IH]; simpl; [done |].
  case_bool_decide as Hn; [intros [= <-]; subst; left | right; auto].
Qed.

Lemma descend_at_path path : ∀ d v, descend d path = Some v → at_path d path v.
Proof.
  induction path as [| k rest IH]; intros d v; simpl; [done |].
  destruct rest as [| k' rest'].
  - intros H%find_elem. by apply at_here.
  - destruct (find k d) as [[texto | d'] |] eqn:Hf; try done.
    intros H. eapply at_below; [by apply find_elem | by apply IH].
Qed.

(** The entries of section 6 of the specification, in the order listed: the
    names leading to each, and the text of each file. *)
Definition listing : list (list string * option string) :=
  [ (["package.json"], Some "");
    (["server.js"], Some "// Arquivo principal do servidor");
    (["config"], None);
    (["config"; "database.js"], Some "// Configuração do SQLite");
    (["routes"], None);
    (["routes"; "auth.js"], Some "// Rotas de autenticação");
    (["routes"; "games.js"], Some "// Rotas de gerenciamento de jogos");
    (["routes"; "users.js"], Some "// Rotas de gerenciamento de usuários");
    (["services"], None);
    (["services"; "wikipediaService.js"], Some "// Integração com a API da Wikipédia");
    (["models"], None);
    (["models"; "User.js"], Some "// Modelo de usuário");
    (["models"; "GameSession.js"], Some "// Modelo de sessão de jogo");
    (["models"; "PathHistory.js"], Some "// Modelo de histórico de percurso");
    (["utils"], None);
    (["utils"; "auth.js"], Some "// Funções de autenticação");
    (["utils"; "gameLogic.js"], Some "// Lógica do jogo") ]%string.

Definition listed_path (e : list string * option string) : list str :=
  py <$> e.1.

Definition listed_node (c : option string) : node :=
  match c with
  | None => Dir []
  | Some texto => File (py texto)
  end.

Definition same_kind (v w : node) : bool :=
  match v, w with
  | File a, File b => bool_decide (a = b)
  | Dir _, Dir _ => true
  | _, _ => false
  end.

(** The listing and the literal agree: same paths in the same order, same
    kinds, same texts. *)
Lemma listing_paths : paths estrutura_projeto = listed_path <$> listing.
Proof. by vm_compute. Qed.

Lemma listing_nodes :
  forallb (λ e, match descend estrutura_projeto (listed_path e) with
                | Some v => same_kind v (listed_node e.2)
                | None => false
                end) listing = true.
Proof. by vm_compute. Qed.

Lemma estrutura_projeto_wf : wf_dict estrutura_projeto = true.
Proof. by vm_compute. Qed.

Lemma estrutura_projeto_plain : plain_dict estrutura_projeto = true.
Proof. by vm_compute. Qed.

Section Main.

Variable E : env.

Lemma makedirs_base s :
  makedirs E diretorio_base s = (Ok tt, emit (EvMakedirs diretorio_base) s).
Proof. reflexivity. Qed.

Lemma resolves_base m : resolves E diretorio_base (cwd E) m.
Proof. reflexivity. Qed.

Lemma main_ok s s' :
  main E s = (Ok tt, s') →
  ∃ s2, criar_estrutura E diretorio_base estrutura_projeto
          (emit (EvMakedirs diretorio_base) s) = (Ok tt, s2) ∧
        s' = (print mensagem s2).2.
Proof.
  unfold main. rewrite bind_unfold, makedirs_base, bind_unfold.
  destruct (criar_estrutura _ _ _ _) as [[[] | e] s2]; [| done].
  intros [= <-]. eauto.
Qed.

(** C2: when the script runs to the end, every entry of the listing is
    there below the working directory, each file holding its placeholder
    text ([package.json] no bytes at all), and every entry the run has
    created or changed is one of the listing. *)
Theorem main_creates_listing s s' :
  main E s = (Ok tt, s') →
  Forall (λ e,
     match e.2 with
     | None => isdir E (join_all diretorio_base (listed_path e)) (fs s') = true
     | Some texto =>
         ∃ bs, encode (locale E) (py texto) = Some bs ∧
               read_bytes E (join_all diretorio_base (listed_path e)) (fs s') = Some bs
     end) listing ∧
  read_bytes E (py "./package.json") (fs s') = Some [] ∧
  ∀ l, fs s' !! l ≠ fs s !! l → ∃ e, e ∈ listing ∧ l = cwd E ++ listed_path e.
Proof.
  intros (s2 & Hrun & ->)%main_ok. simpl fs.
  pose proof (walk_materialized E _ _ _ _ estrutura_projeto_wf estrutura_projeto_plain Hrun)
    as Hmat.
  assert (Forall (λ e,
     match e.2 with
     | None => isdir E (join_all diretorio_base (listed_path e)) (fs s2) = true
     | Some texto =>
         ∃ bs, encode (locale E) (py texto) = Some bs ∧
               read_bytes E (join_all diretorio_base (listed_path e)) (fs s2) = Some bs
     end) listing) as Hall.
  { apply Forall_forall. intros [names c] Hin.
    pose proof listing_nodes as Hn. rewrite forallb_forall in Hn.
    specialize (Hn (names, c)). rewrite <- list_elem_of_In in Hn. specialize (Hn Hin).
    destruct (descend estrutura_projeto (listed_path (names, c))) as [v |] eqn:Hd; [| done].
    apply descend_at_path, Hmat in Hd.
    destruct c as [texto |], v as [texto' | d']; simpl in Hn |- *; try done.
    apply bool_decide_eq_true in Hn. by subst. }
  split; [done |]. split.
  - apply Forall_inv in Hall. destruct Hall as (bs & Hbs & Hread).
    simpl in Hbs. destruct (locale E); injection Hbs as <-; exact Hread.
  - intros l Hl.
    assert (fs s2 = model (locale E) (cwd E) estrutura_projeto (fs s)) as Hfs.
    { eapply run_model; [apply estrutura_projeto_plain | apply resolves_base |].
      by apply walk_ok in Hrun. }
    rewrite Hfs in Hl. apply model_changed in Hl as (path & Hp & ->).
    rewrite listing_paths in Hp. apply list_elem_of_fmap in Hp as (e & -> & He). eauto.
Qed.

End Main.

Definition casa : state :=
  State {[ [py "home"] := EDir false; [py "home"; py "u"] := EDir false ]} ∅ 0 [] [].

Lemma main_creates_listing_witness :
  let E := Env [py "home"; py "u"] UTF8 in
  read_bytes E (py "./package.json") (fs (main E casa).2) = Some [].
Proof.
  intros E. apply (main_creates_listing E casa (main E casa).2).
  apply (outcome_ok (main E casa) tt). vm_compute. reflexivity.
Defined.

(** ** The branch for a string value *)

Lemma split_sep_sub p : ∀ c x, c ∈ split_sep p → x ∈ c → x ∈ p.
Proof.
  induction p as [| a r IH]; intros c x; simpl.
  - intros ->%list_elem_of_singleton. done.
  - destruct (N.eqb_spec a SEP) as [-> | Ha].
    + intros [-> | Hc]%elem_of_cons Hx; [by apply elem_of_nil in Hx |].
      right. by eapply IH.
    + pose proof (split_sep_nonempty r) as Hne.
      destruct (split_sep r) as [| w ws]; [done |].
      intros [-> | Hc]%elem_of_cons Hx.
      * apply elem_of_cons in Hx as [-> | Hx]; [left | right].
        apply (IH w); [left | done].
      * right. apply (IH c); [by right | done].
Qed.

Lemma last_split_sep_nul p : has_nul p = false → has_nul (List.last (split_sep p) []) = false.
Proof.
  unfold has_nul. rewrite !bool_decide_eq_false. intros Hp Hc. apply Hp.
  apply (split_sep_sub p (List.last (split_sep p) [])); [| done].
  pose proof (split_sep_nonempty p) as Hne.
  rewrite (app_removelast_last [] Hne) at 2. apply elem_of_app. right. left.
Qed.

Definition parent_dir (from : loc) (p : str) (m : gmap loc entry) : option loc :=
  match walk m from (removelast (split_sep p)) with
  | Ok d => match dir_at m d with Some _ => Some d | None => None end
  | Raise _ => None
  end.

Lemma target_parent from p m l :
  target from p m = Ok l → is_Some (parent_dir from p m).
Proof.
  unfold target, parent_dir. destruct (has_nul p); [done |]. case_bool_decide; [done |].
  destruct (walk _ _ _) as [d | e]; [| done].
  destruct (dir_at m d); [eauto | done].
Qed.

Lemma stat_written from p m l bs :
  target from p m = Ok l → stat from p (<[l := EFile bs]> m) = Some (EFile bs).
Proof.
  intros Ht. pose proof (target_not_dir _ _ _ _ Ht) as Hnd.
  pose proof (grows_insert_file m l bs Hnd) as G.
  unfold target in Ht. unfold stat.
  destruct (has_nul p) eqn:Hn; [done |]. case_bool_decide; [done |].
  destruct (walk m from _) as [d | e] eqn:Hw; [| done].
  rewrite (walk_grows _ _ _ _ _ G Hw).
  destruct (dir_at m d) as [ro |]; [| done].
  rewrite (last_split_sep_nul p Hn).
  destruct (is_dot _); [done |]. destruct (is_dotdot _); [done |]. simpl in Ht.
  assert (l = d ++ [List.last (split_sep p) []]) as ->.
  { destruct (m !! (d ++ [_])) as [[ro' | bs'] |]; [done | by injection Ht |].
    destruct ro; [done | by injection Ht]. }
  apply lookup_insert_eq.
Qed.

Section Branch.

Variable E : env.

(** What [with open(...) as arquivo: arquivo.write(texto)] does, case by
    case. *)
Lemma file_branch_cases p texto s :
  let s1 := emit (EvOpen p) s in
  let h := next_handle s in
  match target (start E p) p (fs s) with
  | Raise e => file_branch E p texto s = (Raise e, s1)
  | Ok l =>
      match encode (locale E) texto with
      | None =>
          file_branch E p texto s =
          (Raise UnicodeEncodeError,
           State (<[l := EFile []]> (fs s)) (delete h (<[h := l]> (handles s))) (S h)
                 (stdout s) (trace s ++ [EvOpen p; EvWrite h texto; EvClose h]))
      | Some bs =>
          file_branch E p texto s =
          (Ok tt,
           State (<[l := EFile bs]> (fs s)) (delete h (<[h := l]> (handles s))) (S h)
                 (stdout s) (trace s ++ [EvOpen p; EvWrite h texto; EvClose h]))
      end
  end.
Proof.
  unfold file_branch, with_open, open_w. simpl.
  destruct (target _ p (fs s)) as [l | e]; [| done].
  unfold write. simpl. rewrite lookup_insert_eq.
  destruct (encode _ texto) as [bs |].
  - rewrite lookup_insert_eq. unfold close, set_fs, emit. simpl.
    by rewrite insert_insert_eq, <- !app_assoc.
  - unfold close, emit. simpl. by rewrite <- !app_assoc.
Qed.

Lemma file_branch_read p texto s s' :
  file_branch E p texto s = (Ok tt, s') →
  ∃ bs, encode (locale E) texto = Some bs ∧ read_bytes E p (fs s') = Some bs.
Proof.
  pose proof (file_branch_cases p texto s) as H. simpl in H.
  destruct (target _ p (fs s)) as [l | e] eqn:Ht; [| by rewrite H].
  destruct (encode _ texto) as [bs |]; rewrite H; [| done].
  intros [= <-]. exists bs. split; [done |]. unfold read_bytes. simpl.
  by rewrite (stat_written _ _ _ _ bs Ht).
Qed.

(** C7, amended: the file branch encodes the string with the locale's
    preferred encoding ([open] is given none): the file's bytes are that
    encoding of the text, hence its UTF-8 encoding when the locale's
    encoding is UTF-8. *)
Theorem file_bytes_locale_encoding base nome texto s s' :
  criar_item E base nome (File texto) s = (Ok tt, s') →
  ∃ bs, encode (locale E) texto = Some bs ∧
        read_bytes E (join base nome) (fs s') = Some bs ∧
        (locale E = UTF8 → encode UTF8 texto = Some bs).
Proof.
  intros (bs & Hbs & Hr)%file_branch_read. exists bs.
  split; [done |]. split; [done |]. by intros <-.
Qed.

(** C6: the file branch creates no directory, whatever its outcome, and
    when the directory part of its path does not name an existing
    directory it raises and leaves the filesystem as it was. *)
Theorem file_branch_makes_no_directory base nome texto s :
  let r := criar_item E base nome (File texto) s in
  let caminho := join base nome in
  (∀ l ro, fs r.2 !! l = Some (EDir ro) ↔ fs s !! l = Some (EDir ro)) ∧
  (parent_dir (start E caminho) caminho (fs s) = None →
   (∃ e, r.1 = Raise e) ∧ fs r.2 = fs s).
Proof.
  simpl. change (criar_item E base nome (File texto) s)
    with (file_branch E (join base nome) texto s).
  pose proof (file_branch_cases (join base nome) texto s) as H. simpl in H.
  destruct (target _ (join base nome) (fs s)) as [l | e] eqn:Ht.
  - pose proof (target_not_dir _ _ _ _ Ht) as Hnd.
    destruct (target_parent _ _ _ _ Ht) as [d Hd].
    assert (∀ bs l' ro, <[l := EFile bs]> (fs s) !! l' = Some (EDir ro)
                        ↔ fs s !! l' = Some (EDir ro)) as Hdirs.
    { intros bs l' ro. destruct (decide (l = l')) as [<- | Hne].
      - rewrite lookup_insert_eq. split; [done | by intros ?%Hnd].
      - by rewrite lookup_insert_ne. }
    destruct (encode _ texto) as [bs |]; rewrite H; simpl;
      (split; [apply Hdirs | by rewrite Hd]).
  - rewrite H. simpl. split; [done |]. eauto.
Qed.

(** C9: the file object is released on every way out of the [with] block:
    when [open] raised none was acquired; otherwise, whether the body
    returned or raised, the object is closed when the statement is left,
    the closing is the last call made, and the body's outcome is passed on.
    The file branch leaves no file object open that was not open before. *)
Theorem with_open_releases {A} p (corpo : nat → M A) texto s :
  match open_w E p s with
  | (Raise e, s1) =>
      with_open E p corpo s = (Raise e, s1) ∧ handles s1 = handles s
  | (Ok arquivo, s1) =>
      let r := with_open E p corpo s in
      is_Some (handles s1 !! arquivo) ∧
      r.1 = (corpo arquivo s1).1 ∧
      handles r.2 !! arquivo = None ∧
      last (trace r.2) = Some (EvClose arquivo)
  end ∧
  handles (file_branch E p texto s).2 ⊆ handles s.
Proof.
  split.
  - unfold with_open. destruct (open_w E p s) as [[arquivo | e] s1] eqn:Ho.
    + simpl. split.
      { unfold open_w in Ho. simpl in Ho.
        destruct (target _ p (fs s)); [| done]. injection Ho as <- <-. simpl.
        by rewrite lookup_insert_eq. }
      destruct (corpo arquivo s1) as [r s2]. simpl.
      split; [done |]. split; [apply lookup_delete_eq |].
      by rewrite last_snoc.
    + split; [done |]. unfold open_w in Ho. simpl in Ho.
      destruct (target _ p (fs s)); [done |]. by injection Ho as <- <-.
  - pose proof (file_branch_cases p texto s) as H. simpl in H.
    destruct (target _ p (fs s)) as [l | e]; [| by rewrite H].
    destruct (encode _ texto); rewrite H; simpl;
      rewrite delete_insert_eq; apply delete_subseteq.
Qed.

End Branch.

(** C7 as stated fails under a Latin-1 locale: the script's own
    [database.js] text is written as Latin-1 bytes, which are not its UTF-8
    encoding. *)
Lemma file_bytes_not_utf8 :
  let E := Env [] Latin1 in
  let texto := py "// Configuração do SQLite" in
  let r := criar_item E (py "./") (py "database.js") (File texto) vazio in
  r.1 = Ok tt ∧
  read_bytes E (py "./database.js") (fs r.2) = encode Latin1 texto ∧
  read_bytes E (py "./database.js") (fs r.2) ≠ encode UTF8 texto.
Proof. by vm_compute. Qed.

Lemma file_bytes_locale_encoding_witness :
  let E := Env [] UTF8 in
  let texto := py "// Configuração do SQLite" in
  let r := criar_item E (py "./") (py "database.js") (File texto) vazio in
  ∃ bs, encode UTF8 texto = Some bs ∧
        read_bytes E (py "./database.js") (fs r.2) = Some bs ∧
        (UTF8 = UTF8 → encode UTF8 texto = Some bs).
Proof.
  intros E texto r.
  apply (file_bytes_locale_encoding E (py "./") (py "database.js") texto vazio r.2).
  apply (outcome_ok r tt). vm_compute. reflexivity.
Defined.

Lemma file_branch_makes_no_directory_witness :
  let E := Env [] UTF8 in
  let r := criar_item E (py "./missing") (py "f.txt") (File (py "x")) vazio in
  (∃ e, r.1 = Raise e) ∧ fs r.2 = fs vazio.
Proof.
  intros E r.
  apply (file_branch_makes_no_directory E (py "./missing") (py "f.txt") (py "x") vazio).
  vm_compute. reflexivity.
Defined.

(** ** Running the walk: overwriting, running twice, failing, finishing *)

(** The paths of the [makedirs] and [open] calls in a trace, oldest first. *)
Definition started (t : list event) : list str :=
  omap (λ ev, match ev with
              | EvMakedirs p | EvOpen p => Some p
              | _ => None
              end) t.

(** Number of nodes, and nesting depth, of a tree. *)
Fixpoint size_node (v : node) : nat :=
  match v with
  | File _ => 1
  | Dir d =>
      S ((fix itens (l : list (str * node)) : nat :=
            match l with
            | [] => 0
            | (_, c) :: r => size_node c + itens r
            end) d)
  end%nat.

Fixpoint size (d : dict) : nat :=
  match d with
  | [] => 0
  | (_, c) :: r => size_node c + size r
  end%nat.

Fixpoint height_node (v : node) : nat :=
  match v with
  | File _ => 0
  | Dir d =>
      (fix itens (l : list (str * node)) : nat :=
         match l with
         | [] => 0
         | (_, c) :: r => Nat.max (S (height_node c)) (itens r)
         end) d
  end%nat.

Definition height (d : dict) : nat := height_node (Dir d).

Section Runs.

Variable E : env.

(** C5, amended: when every name of the tree is a plain path component,
    a file that was already at a file node's path, whatever it held, holds
    the node's text (encoded) once [criar_estrutura] has returned. *)
Theorem file_overwritten base d s s' path texto old :
  wf_dict d = true → plain_dict d = true →
  at_path d path (File texto) →
  read_bytes E (join_all base path) (fs s) = Some old →
  criar_estrutura E base d s = (Ok tt, s') →
  ∃ bs, encode (locale E) texto = Some bs ∧
        read_bytes E (join_all base path) (fs s') = Some bs.
Proof.
  intros Hwf Hp Hat _ Hrun.
  apply (walk_materialized E base d s s' Hwf Hp Hrun path (File texto) Hat).
Qed.

(** C4: when [criar_estrutura] has returned, running it again on the
    filesystem it left returns too and leaves that filesystem as it is:
    every directory, every file and every byte. *)
Theorem criar_estrutura_idempotent base d s s1 :
  criar_estrutura E base d s = (Ok tt, s1) →
  ∃ s2, criar_estrutura E base d s1 = (Ok tt, s2) ∧ fs s2 = fs s1.
Proof.
  intros H%walk_ok%fs_exec_idempotent.
  destruct (criar_estrutura E base d s1) as [r s2] eqn:H2.
  rewrite criar_estrutura_plan in H2.
  destruct (exec_fs E (plan base d) s1) as [Hr Hf]. rewrite H2, H in Hr, Hf.
  simpl in Hr, Hf. subst r. eauto.
Qed.

Lemma run_op_started o s :
  started (trace (run_op E o s).2) = started (trace s) ++ [op_path o].
Proof.
  destruct o as [p | p texto]; simpl.
  - unfold makedirs. simpl. case_bool_decide; simpl.
    + unfold started. by rewrite omap_app.
    + destruct (mkdir_walk _ _ _). simpl. unfold started. by rewrite omap_app.
  - pose proof (file_branch_cases E p texto s) as H. simpl in H.
    destruct (target _ p (fs s)); [destruct (encode _ texto) |]; rewrite H; simpl;
      unfold started; by rewrite omap_app.
Qed.

Lemma exec_started pre : ∀ s s1,
  exec E pre s = (Ok tt, s1) →
  started (trace s1) = started (trace s) ++ (op_path <$> pre).
Proof.
  induction pre as [| o r IH]; intros s s1; simpl.
  - intros [= <-]. by rewrite app_nil_r.
  - rewrite bind_unfold. pose proof (run_op_started o s) as Ho.
    destruct (run_op E o s) as [[[] | e] s2]; [| done]. simpl in Ho.
    intros H%IH. by rewrite H, Ho, <- app_assoc.
Qed.

Lemma exec_fails pre o post s s1 e s2 :
  exec E pre s = (Ok tt, s1) → run_op E o s1 = (Raise e, s2) →
  exec E (pre ++ o :: post) s = (Raise e, s2).
Proof.
  intros Hpre Ho. rewrite exec_app, bind_unfold, Hpre. simpl.
  by rewrite bind_unfold, Ho.
Qed.

(** What a failing call changes on disk. *)
Lemma fs_op_raise o m e m2 :
  fs_op E o m = (Raise e, m2) →
  ∀ l x, m !! l = Some x →
    m2 !! l = Some x ∨
    (∃ texto, o = OWrite (op_path o) texto ∧
              target (start E (op_path o)) (op_path o) m = Ok l ∧
              m2 !! l = Some (EFile [])).
Proof.
  destruct o as [p | p texto]; simpl.
  - case_bool_decide; [intros [= _ <-]; auto |].
    intros Ho l x Hl. left. eapply lookup_weaken; [done |].
    pose proof (mkdir_walk_subseteq (split_sep p) (start E p) m) as Hsub.
    by rewrite Ho in Hsub.
  - destruct (target _ p m) as [w | e'] eqn:Ht; [| intros [= _ <-]; auto].
    destruct (encode _ texto); [done |]. intros [= _ <-] l x Hl.
    destruct (decide (w = l)) as [<- | Hne].
    + right. exists texto. by rewrite lookup_insert_eq.
    + left. by rewrite lookup_insert_ne.
Qed.

(** C3: when a call of the walk raises, [criar_estrutura] raises that
    error there and then; the calls made are those before the failing one
    and the failing one, none of those that follow it in the walk (the
    descendants of a directory follow it); and what the earlier calls put
    on disk is still there, nothing having been undone: every entry is as
    the failing call found it, save the file that call itself had opened. *)
Theorem criar_estrutura_raises_at_first_failure base d s pre o post s1 e s2 :
  plan base d = pre ++ o :: post →
  exec E pre s = (Ok tt, s1) →
  run_op E o s1 = (Raise e, s2) →
  criar_estrutura E base d s = (Raise e, s2) ∧
  started (trace s2) = started (trace s) ++ (op_path <$> pre) ++ [op_path o] ∧
  grows (fs s1) (fs s2) ∧
  ∀ l x, fs s1 !! l = Some x →
    fs s2 !! l = Some x ∨
    (∃ texto, o = OWrite (op_path o) texto ∧
              target (start E (op_path o)) (op_path o) (fs s1) = Ok l ∧
              fs s2 !! l = Some (EFile [])).
Proof.
  intros Hplan Hpre Ho.
  destruct (run_op_fs E o s1) as [Hr Hf]. rewrite Ho in Hr, Hf. simpl in Hr, Hf.
  split; [| split; [| split]].
  - rewrite criar_estrutura_plan, Hplan. by eapply exec_fails.
  - pose proof (run_op_started o s1) as Hs. rewrite Ho in Hs. simpl in Hs.
    by rewrite Hs, (exec_started pre s s1 Hpre), <- app_assoc.
  - rewrite Hf. apply fs_op_grows.
  - apply (fs_op_raise o (fs s1) e). rewrite Hf, Hr. by destruct (fs_op E o (fs s1)).
Qed.

Lemma run_op_stdout o s : stdout (run_op E o s).2 = stdout s.
Proof.
  destruct o as [p | p texto]; simpl.
  - unfold makedirs. simpl. case_bool_decide; [done |]. by destruct (mkdir_walk _ _ _).
  - pose proof (file_branch_cases E p texto s) as H. simpl in H.
    destruct (target _ p (fs s)); [destruct (encode _ texto) |]; by rewrite H.
Qed.

Lemma exec_stdout ops : ∀ s, stdout (exec E ops s).2 = stdout s.
Proof.
  induction ops as [| o r IH]; intros s; simpl; [done |].
  rewrite bind_unfold. pose proof (run_op_stdout o s) as Ho.
  destruct (run_op E o s) as [[[] | e] s1]; simpl in *; [| done].
  by rewrite IH.
Qed.

Lemma run_op_trace o s :
  (length (trace (run_op E o s).2) ≤ length (trace s) + 3)%nat.
Proof.
  destruct o as [p | p texto]; simpl.
  - unfold makedirs. simpl. case_bool_decide; simpl.
    + rewrite length_app. simpl. lia.
    + destruct (mkdir_walk _ _ _). simpl. rewrite length_app. simpl. lia.
  - pose proof (file_branch_cases E p texto s) as H. simpl in H.
    destruct (target _ p (fs s)); [destruct (encode _ texto) |]; rewrite H; simpl;
      rewrite length_app; simpl; lia.
Qed.

Lemma exec_trace ops : ∀ s,
  (length (trace (exec E ops s).2) ≤ length (trace s) + 3 * length ops)%nat.
Proof.
  induction ops as [| o r IH]; intros s; simpl; [lia |].
  rewrite bind_unfold. pose proof (run_op_trace o s) as Ho.
  destruct (run_op E o s) as [[[] | e] s1]; simpl in *; [| lia].
  specialize (IH s1). lia.
Qed.

End Runs.

Lemma plan_item_length v : ∀ base nome, length (plan_item base nome v) = size_node v.
Proof.
  induction v as [texto | d IH] using node_ind; intros base nome; [done |].
  simpl. f_equal. generalize (join base nome) as caminho.
  induction IH as [| [n c] r Hc _ IHr]; intros caminho; [done |].
  rewrite length_app. simpl in Hc. by rewrite Hc, IHr.
Qed.

Lemma plan_length d : ∀ base, length (plan base d) = size d.
Proof.
  induction d as [| [n c] r IH]; intros base; [done |].
  simpl. by rewrite length_app, plan_item_length, IH.
Qed.

Lemma size_child d k d' : (k, Dir d') ∈ d → (size d' < size d)%nat.
Proof.
  induction d as [| [n c] r IH]; [by intros ?%elem_of_nil |].
  intros [[= <- <-] | Hin]%elem_of_cons; simpl.
  - change ((fix itens (l : list (str * node)) : nat :=
               match l with
               | [] => 0
               | (_, c) :: r => size_node c + itens r
               end%nat) d') with (size d'). lia.
  - specialize (IH Hin). lia.
Qed.

Lemma height_child d k d' : (k, Dir d') ∈ d → (height d' < height d)%nat.
Proof.
  unfold height.
  induction d as [| [n c] r IH]; [by intros ?%elem_of_nil |].
  intros [[= <- <-] | Hin]%elem_of_cons.
  - change (height_node (Dir ((k, Dir d') :: r)))
      with (Nat.max (S (height_node (Dir d'))) (height_node (Dir r))). lia.
  - specialize (IH Hin).
    change (height_node (Dir ((n, c) :: r)))
      with (Nat.max (S (height_node c)) (height_node (Dir r))). lia.
Qed.

Section Ends.

Variable E : env.

(** C10: [criar_estrutura] returns an outcome on every tree: it makes one
    [makedirs] or one [open] per node, so at most three library calls per
    node, and each recursive call is on the dictionary of a child, which
    is smaller and less deep than the dictionary it sits in. *)
Theorem criar_estrutura_terminates base d s :
  (∃ r s', criar_estrutura E base d s = (r, s') ∧
           (length (trace s') ≤ length (trace s) + 3 * size d)%nat) ∧
  length (plan base d) = size d ∧
  ∀ k d', (k, Dir d') ∈ d → (size d' < size d)%nat ∧ (height d' < height d)%nat.
Proof.
  split; [| split].
  - destruct (criar_estrutura E base d s) as [r s'] eqn:H. exists r, s'.
    split; [done |]. rewrite criar_estrutura_plan in H.
    pose proof (exec_trace E (plan base d) s) as Ht.
    by rewrite H, plan_length in Ht.
  - apply plan_length.
  - intros k d' Hin. split; [by eapply size_child | by eapply height_child].
Qed.

(** C8: the success line is printed exactly when the base directory was
    made and the whole walk returned; when either raised, [main] raises
    the same error and nothing is printed. *)
Theorem mensagem_iff_walk_completed s :
  let w := (makedirs E diretorio_base >>
            criar_estrutura E diretorio_base estrutura_projeto) s in
  let r := main E s in
  (w.1 = Ok tt ↔ stdout r.2 = stdout s ++ [mensagem]) ∧
  (w.1 = Ok tt → r.1 = Ok tt) ∧
  (∀ e, w.1 = Raise e → r.1 = Raise e ∧ stdout r.2 = stdout s).
Proof.
  intros w r. subst w r. unfold main. rewrite !bind_unfold, makedirs_base.
  pose proof (exec_stdout E (plan diretorio_base estrutura_projeto)
                (emit (EvMakedirs diretorio_base) s)) as Hs.
  rewrite <- criar_estrutura_plan in Hs. rewrite bind_unfold.
  destruct (criar_estrutura E diretorio_base estrutura_projeto
              (emit (EvMakedirs diretorio_base) s)) as [[[] | e] s2];
    cbn [fst snd print stdout emit] in *; rewrite Hs.
  - repeat split; done.
  - split; [split; [done |] | split; [done |]].
    + intros H. apply (f_equal length) in H. rewrite length_app in H. simpl in H. lia.
    + by intros e' [= <-].
Qed.

End Ends.

(** ** Concrete runs *)

(** C5 as stated fails: a second key names the file of the first; the file
    that was there before ends with the second node's text, not the
    first's. *)
Lemma file_overwritten_by_other_node :
  let E := Env [] UTF8 in
  let d := [ (py "a", Dir [ (py "b.txt", File (py "x")) ]);
             (py "a/b.txt", File (py "y")) ] in
  let s := State {[ [py "a"] := EDir false;
                    [py "a"; py "b.txt"] := EFile (bytes_of UTF8 (py "old")) ]}
                 ∅ 0 [] [] in
  let caminho := join_all (py "./") [py "a"; py "b.txt"] in
  let r := criar_estrutura E (py "./") d s in
  wf_dict d = true ∧
  descend d [py "a"; py "b.txt"] = Some (File (py "x")) ∧
  read_bytes E caminho (fs s) = encode UTF8 (py "old") ∧
  r.1 = Ok tt ∧
  read_bytes E caminho (fs r.2) = encode UTF8 (py "y") ∧
  read_bytes E caminho (fs r.2) ≠ encode UTF8 (py "x").
Proof. by vm_compute. Qed.

Lemma file_overwritten_witness :
  let E := Env [] UTF8 in
  let d := [ (py "a", Dir [ (py "b.txt", File (py "x")) ]) ] in
  let s := State {[ [py "a"] := EDir false;
                    [py "a"; py "b.txt"] := EFile (bytes_of UTF8 (py "old")) ]}
                 ∅ 0 [] [] in
  let caminho := join_all (py "./") [py "a"; py "b.txt"] in
  ∃ bs, encode UTF8 (py "x") = Some bs ∧
        read_bytes E caminho (fs (criar_estrutura E (py "./") d s).2) = Some bs.
Proof.
  intros E d s caminho.
  apply (file_overwritten E (py "./") d s (criar_estrutura E (py "./") d s).2
           [py "a"; py "b.txt"] (py "x") (bytes_of UTF8 (py "old"))).
  - vm_compute. reflexivity.
  - vm_compute. reflexivity.
  - apply descend_at_path. vm_compute. reflexivity.
  - vm_compute. reflexivity.
  - apply (outcome_ok (criar_estrutura E (py "./") d s) tt). vm_compute. reflexivity.
Defined.

Lemma criar_estrutura_idempotent_witness :
  let E := Env [] UTF8 in
  let s1 := (criar_estrutura E (py "./") estrutura_projeto vazio).2 in
  ∃ s2, criar_estrutura E (py "./") estrutura_projeto s1 = (Ok tt, s2) ∧ fs s2 = fs s1.
Proof.
  intros E s1. subst s1.
  apply (criar_estrutura_idempotent E (py "./") estrutura_projeto vazio).
  apply (outcome_ok (criar_estrutura E (py "./") estrutura_projeto vazio) tt).
  vm_compute. reflexivity.
Defined.

(** A read-only directory in the way: [locked] is there and read-only, so
    making [locked/sub] is refused. *)
Definition trancado : state :=
  State {[ [py "out"] := EDir false; [py "out"; py "locked"] := EDir true ]} ∅ 0 [] [].

Definition arvore_trancada : dict :=
  [ (py "a.txt", File (py "hi"));
    (py "locked", Dir [ (py "sub", Dir [ (py "f.txt", File (py "x")) ]) ]);
    (py "z.txt", File (py "2")) ].

Definition E_trancado : env := Env [] UTF8.

Definition antes : list op :=
  [ OWrite (py "./out/a.txt") (py "hi"); OMakedirs (py "./out/locked") ].

Definition falha : op := OMakedirs (py "./out/locked/sub").

Definition depois : list op :=
  [ OWrite (py "./out/locked/sub/f.txt") (py "x"); OWrite (py "./out/z.txt") (py "2") ].

Definition trancado1 : state := (exec E_trancado antes trancado).2.
Definition trancado2 : state := (run_op E_trancado falha trancado1).2.

Lemma criar_estrutura_raises_at_first_failure_witness :
  criar_estrutura E_trancado (py "./out") arvore_trancada trancado
    = (Raise PermissionError, trancado2) ∧
  started (trace trancado2)
    = started (trace trancado) ++ (op_path <$> antes) ++ [op_path falha].
Proof.
  destruct (criar_estrutura_raises_at_first_failure E_trancado (py "./out")
              arvore_trancada trancado antes falha depois trancado1
              PermissionError trancado2)
    as (Hr & Hs & _ & _).
  - vm_compute. reflexivity.
  - apply (outcome_ok (exec E_trancado antes trancado) tt). vm_compute. reflexivity.
  - apply (outcome_raise (run_op E_trancado falha trancado1) PermissionError).
    vm_compute. reflexivity.
  - exact (conj Hr Hs).
Defined.

(** * Further properties of the script *)

(** ** The order of the calls, and what the walk leaves alone *)

Section Calls.

Variable E : env.

Lemma exec_started_prefix ops : ∀ s,
  ∃ calls, started (trace (exec E ops s).2) = started (trace s) ++ calls ∧
           calls `prefix_of` (op_path <$> ops) ∧
           ((exec E ops s).1 = Ok tt → calls = op_path <$> ops).
Proof.
  induction ops as [| o r IH]; intros s.
  - exists []. simpl. by rewrite app_nil_r.
  - simpl. rewrite bind_unfold. pose proof (run_op_started E o s) as Ho.
    destruct (run_op E o s) as [[[] | e] s1]; simpl in Ho.
    + destruct (IH s1) as (calls & Hc & Hp & Hok). exists (op_path o :: calls).
      rewrite Hc, Ho, <- app_assoc. split; [done |].
      split; [by apply prefix_cons |]. intros H. by rewrite (Hok H).
    + exists [op_path o]. simpl. split; [done |].
      split; [| done]. apply prefix_cons, prefix_nil.
Qed.

(** X1: the walk calls the library in pre-order: the paths of its
    [makedirs] and [open] calls are a prefix of those of the plan, in which
    a directory comes before its children and these before its later
    siblings; all of the plan when the walk returns. *)
Theorem criar_estrutura_calls_in_order base d s :
  let r := criar_estrutura E base d s in
  (∀ k d' rest, plan base ((k, Dir d') :: rest)
     = OMakedirs (join base k) :: plan (join base k) d' ++ plan base rest) ∧
  ∃ calls, started (trace r.2) = started (trace s) ++ calls ∧
           calls `prefix_of` (op_path <$> plan base d) ∧
           (r.1 = Ok tt → calls = op_path <$> plan base d).
Proof.
  intros r. subst r. split.
  - intros k d' rest. rewrite app_comm_cons, <- plan_item_dir. reflexivity.
  - rewrite criar_estrutura_plan. apply exec_started_prefix.
Qed.

(** What one call can do to one location. *)
Lemma mkdir_walk_effect cs : ∀ cur m l,
  (mkdir_walk cur cs m).2 !! l = m !! l ∨
  (m !! l = None ∧ (mkdir_walk cur cs m).2 !! l = Some (EDir false)).
Proof.
  induction cs as [| c cs IH]; intros cur m l; simpl; [by left |].
  destruct (is_dot c); [apply IH |].
  destruct (is_dotdot c); [apply IH |].
  destruct (has_nul c); [by left |].
  destruct (m !! (cur ++ [c])) as [[ro | bs] |] eqn:Hl; [apply IH | by left |].
  destruct (dir_at m cur) as [[] |]; [by left | | by left].
  destruct (decide (cur ++ [c] = l)) as [<- | Hne].
  - right. split; [done |].
    eapply lookup_weaken; [apply lookup_insert_eq | apply mkdir_walk_subseteq].
  - destruct (IH (cur ++ [c]) (<[cur ++ [c] := EDir false]> m) l) as [H | [H1 H2]].
    + left. by rewrite H, lookup_insert_ne.
    + right. by rewrite lookup_insert_ne in H1.
Qed.

Lemma fs_op_effect o m l :
  (fs_op E o m).2 !! l = m !! l ∨
  (m !! l = None ∧ (fs_op E o m).2 !! l = Some (EDir false)) ∨
  (∃ bs, (fs_op E o m).2 !! l = Some (EFile bs)).
Proof.
  destruct o as [p | p texto]; simpl.
  - case_bool_decide; [by left |].
    destruct (mkdir_walk_effect (split_sep p) (start E p) m l); auto.
  - destruct (target _ p m) as [w | e]; [| by left].
    destruct (decide (w = l)) as [<- | Hne].
    + right. right. destruct (encode _ texto); simpl; rewrite lookup_insert_eq; eauto.
    + left. destruct (encode _ texto); simpl; by rewrite lookup_insert_ne.
Qed.

Lemma fs_exec_effect ops : ∀ m l,
  (fs_exec E ops m).2 !! l = m !! l ∨
  (m !! l = None ∧ (fs_exec E ops m).2 !! l = Some (EDir false)) ∨
  (∃ bs, (fs_exec E ops m).2 !! l = Some (EFile bs)).
Proof.
  induction ops as [| o r IH]; intros m l; [by left |].
  rewrite fs_exec_cons. pose proof (fs_op_effect o m l) as Ho.
  destruct (fs_op E o m) as [[[] | e] m1] eqn:Hop; simpl in Ho; [| done].
  pose proof (fs_exec_grows E r m1) as G.
  destruct (IH m1 l) as [H | [[H1 H2] | H]].
  - rewrite H. done.
  - destruct Ho as [Ho | [[Ho1 Ho2] | [bs Ho]]]; [| congruence | congruence].
    right. left. by rewrite <- Ho.
  - auto.
Qed.

(** X2: whatever the tree and the outcome, the walk removes nothing and
    turns no file into a directory or a directory into a file; where the
    filesystem has changed there is either a directory that was not there,
    or a file. *)
Theorem criar_estrutura_only_adds base d s :
  let s' := (criar_estrutura E base d s).2 in
  grows (fs s) (fs s') ∧
  ∀ l, fs s' !! l ≠ fs s !! l →
       (fs s !! l = None ∧ fs s' !! l = Some (EDir false)) ∨
       (∃ bs, fs s' !! l = Some (EFile bs)).
Proof.
  simpl. rewrite criar_estrutura_plan.
  destruct (exec_fs E (plan base d) s) as [_ ->]. split.
  - apply fs_exec_grows.
  - intros l Hne. destruct (fs_exec_effect (plan base d) (fs s) l) as [H | H]; [done | done].
Qed.

Lemma run_op_handles o s : handles (run_op E o s).2 ⊆ handles s.
Proof.
  destruct o as [p | p texto]; simpl.
  - unfold makedirs. simpl. case_bool_decide; [done |]. by destruct (mkdir_walk _ _ _).
  - pose proof (file_branch_cases E p texto s) as H. simpl in H.
    destruct (target _ p (fs s)); [destruct (encode _ texto) |]; rewrite H; simpl;
      try done; rewrite delete_insert_eq; apply delete_subseteq.
Qed.

Lemma exec_handles ops : ∀ s, handles (exec E ops s).2 ⊆ handles s.
Proof.
  induction ops as [| o r IH]; intros s; simpl; [done |].
  rewrite bind_unfold. pose proof (run_op_handles o s) as Ho.
  destruct (run_op E o s) as [[[] | e] s1]; simpl in *; [| done].
  etrans; [apply IH | done].
Qed.

(** X3: whatever the tree and the outcome, the walk leaves no file object
    open that was not open before it, and prints nothing. *)
Theorem criar_estrutura_leaves_nothing_open base d s :
  let s' := (criar_estrutura E base d s).2 in
  handles s' ⊆ handles s ∧ stdout s' = stdout s.
Proof.
  simpl. rewrite criar_estrutura_plan. split; [apply exec_handles | apply exec_stdout].
Qed.

(** X4: a walk that returns has encoded every text of the tree: a tree
    with a text the locale's encoding cannot encode is never completed. *)
Theorem criar_estrutura_needs_encodable base d s s' :
  criar_estrutura E base d s = (Ok tt, s') →
  ∀ path texto, at_path d path (File texto) → is_Some (encode (locale E) texto).
Proof.
  intros Hrun%walk_ok path texto Hat.
  destruct (at_path_plan d path texto Hat base) as [p Hin].
  by eapply fs_exec_encodes.
Qed.

End Calls.

Lemma criar_estrutura_needs_encodable_witness :
  is_Some (encode UTF8 (py "ção")).
Proof.
  eapply (criar_estrutura_needs_encodable (Env [] UTF8) (py "./")
            [ (py "a.txt", File (py "ção")) ] vazio).
  - apply (outcome_ok (criar_estrutura (Env [] UTF8) (py "./")
                         [ (py "a.txt", File (py "ção")) ] vazio) tt).
    vm_compute. reflexivity.
  - apply at_here. left.
Defined.


(** ** What is already at a node's path *)

Lemma split_sep_snoc p : ∃ pre c, split_sep p = pre ++ [c].
Proof.
  pose proof (split_sep_nonempty p) as Hne.
  destruct (split_sep p) as [| x l] using rev_ind; [done | eauto].
Qed.



Lemma encode_ascii k texto :
  Forall (λ c, c < 128) texto → encode k texto = encode UTF8 texto.
Proof.
  induction 1 as [| c r Hc _ IH]; [done |]. simpl. rewrite IH.
  apply N.ltb_lt in Hc. destruct k; simpl; unfold utf8_char; rewrite ?Hc; try done.
  assert ((c <? 256) = true) as ->; [| done].
  apply N.ltb_lt in Hc. apply N.ltb_lt. lia.
Qed.

Section Conflicts.

Variable E : env.

(** X6: [exist_ok=True]: on a path that is a directory already, [makedirs]
    returns and changes nothing. *)
Theorem makedirs_exist_ok p s :
  isdir E p (fs s) = true →
  makedirs E p s = (Ok tt, emit (EvMakedirs p) s).
Proof.
  unfold isdir, stat, makedirs. case_bool_decide as Hp; [done |].
  destruct (split_sep_snoc p) as (pre & c & ->).
  rewrite removelast_last, last_last.
  destruct (walk (fs s) (start E p) pre) as [d |] eqn:Hw; [| done].
  intros Hst. simpl fs.
  rewrite (mkdir_walk_through pre (fs s) _ d [c] Hw). simpl.
  destruct (is_dot c); [done |]. destruct (is_dotdot c); [done |].
  destruct (has_nul c); [done |].
  by destruct (fs s !! (d ++ [c])) as [[ro | bs] |].
Qed.

(** X7: a file where a directory node should go: [makedirs] raises
    [FileExistsError], nothing is changed and none of the node's children
    is attempted. *)
Theorem dir_node_over_file base k d s bs :
  plain_name k = true →
  read_bytes E (join base k) (fs s) = Some bs →
  criar_item E base k (Dir d) s
    = (Raise FileExistsError, emit (EvMakedirs (join base k)) s).
Proof.
  intros Hk. destruct (split_join base k Hk) as (pre & Hs & _).
  destruct (plain_name_inv k Hk) as (Hd & Hdd & Hn & _ & Hne).
  unfold read_bytes, stat. case_bool_decide as Hp; [done |].
  rewrite Hs, removelast_last, last_last, Hd, Hdd, Hn.
  destruct (walk (fs s) _ pre) as [d0 |] eqn:Hw; [| done].
  destruct (fs s !! (d0 ++ [k])) as [[ro | bs'] |] eqn:Hl; try done. intros _.
  rewrite criar_item_plan, plan_item_dir. simpl exec. rewrite bind_unfold.
  unfold makedirs. rewrite bool_decide_eq_false_2 by done. simpl fs.
  rewrite Hs, (mkdir_walk_through pre (fs s) _ d0 [k] Hw). simpl.
  by rewrite Hd, Hdd, Hn, Hl.
Qed.

(** X8: a directory where a file node should go: [open] raises, and the
    filesystem stays as it was. *)
Theorem file_node_over_dir base k texto s :
  plain_name k = true →
  isdir E (join base k) (fs s) = true →
  ∃ e, criar_item E base k (File texto) s
       = (Raise e, emit (EvOpen (join base k)) s).
Proof.
  intros Hk. destruct (split_join base k Hk) as (pre & Hs & _).
  destruct (plain_name_inv k Hk) as (Hd & Hdd & Hn & _ & Hne).
  unfold isdir, stat. case_bool_decide as Hp; [done |].
  rewrite Hs, removelast_last, last_last, Hd, Hdd, Hn.
  destruct (walk (fs s) _ pre) as [d0 |] eqn:Hw; [| done].
  destruct (fs s !! (d0 ++ [k])) as [[ro | bs'] |] eqn:Hl; try done. intros _.
  change (criar_item E base k (File texto) s)
    with (file_branch E (join base k) texto s).
  pose proof (file_branch_cases E (join base k) texto s) as H. simpl in H.
  assert (∃ e, target (start E (join base k)) (join base k) (fs s) = Raise e) as [e He].
  { unfold target. destruct (has_nul (join base k)); [eauto |].
    rewrite bool_decide_eq_false_2 by done.
    rewrite Hs, removelast_last, last_last, Hw, Hd, Hdd, Hl. simpl.
    destruct (dir_at (fs s) d0); eauto. }
  rewrite He in H. eauto.
Qed.


(** X10: [os.path.join] drops the base before a name that starts with a
    separator: what the walk does for such a key does not depend on the
    base path. *)
Theorem absolute_key_ignores_base base base' k v s :
  startswith_sep k = true →
  criar_item E base k v s = criar_item E base' k v s.
Proof.
  intros Hk.
  assert (∀ a, join a k = k) as Hj by (intros a; unfold join; by rewrite Hk).
  rewrite !criar_item_plan. f_equal.
  destruct v as [texto | d]; [simpl; by rewrite !Hj |].
  by rewrite !plan_item_dir, !Hj.
Qed.

(** X11: a text of ASCII characters only is written as its UTF-8 bytes
    under every locale. *)
Theorem ascii_text_is_utf8 base k texto s s' :
  Forall (λ c, c < 128) texto →
  criar_item E base k (File texto) s = (Ok tt, s') →
  read_bytes E (join base k) (fs s') = encode UTF8 texto.
Proof.
  intros Ha (bs & Hbs & Hr)%file_branch_read.
  by rewrite Hr, <- Hbs, (encode_ascii (locale E) texto Ha).
Qed.

End Conflicts.

(** ** When the walk succeeds, and what it then leaves untouched *)




Section Succeeds.

Variable E : env.






(** X12: a walk over plain names that returns has changed nothing but the
    locations of the tree's nodes below the base directory. *)
Theorem criar_estrutura_frame base b d s s' :
  plain_dict d = true → resolves E base b (fs s) →
  criar_estrutura E base d s = (Ok tt, s') →
  ∀ l, l ∉ (b ++.) <$> paths d → fs s' !! l = fs s !! l.
Proof.
  intros Hp Hb Hrun%walk_ok l Hl.
  rewrite (run_model E d base b (fs s) (fs s') Hp Hb Hrun). by apply model_frame.
Qed.

End Succeeds.


(** ** No entry without a parent directory *)

Definition parents_ok (m : gmap loc entry) : Prop :=
  ∀ l e, m !! l = Some e → is_Some (dir_at m (parent l)).

Lemma parents_ok_grows m m' l0 :
  parents_ok m → grows m m' →
  (∀ l e, m' !! l = Some e → l = l0 ∨ is_Some (m !! l)) →
  is_Some (dir_at m (parent l0)) →
  parents_ok m'.
Proof.
  intros Hm G Hnew H0 l e Hl.
  assert (∀ x, is_Some (dir_at m x) → is_Some (dir_at m' x)) as Hdir.
  { intros x [ro Hro]. exists ro. by eapply grows_dir_at. }
  destruct (Hnew l e Hl) as [-> | [e' He']]; [by apply Hdir |].
  apply Hdir. by eapply Hm.
Qed.

Lemma mkdir_walk_parents cs : ∀ cur m,
  parents_ok m → parents_ok (mkdir_walk cur cs m).2.
Proof.
  induction cs as [| c cs IH]; intros cur m Hm; simpl; [done |].
  destruct (is_dot c); [by apply IH |].
  destruct (is_dotdot c); [by apply IH |].
  destruct (has_nul c); [done |].
  destruct (m !! (cur ++ [c])) as [[ro | bs] |] eqn:Hl; [by apply IH | done |].
  destruct (dir_at m cur) as [[] |] eqn:Hd; [done | | done].
  apply IH. apply (parents_ok_grows m _ (cur ++ [c])); [done | | |].
  - apply subseteq_grows. by apply insert_subseteq.
  - intros l e. destruct (decide (cur ++ [c] = l)) as [<- | Hne]; [by left |].
    rewrite lookup_insert_ne by done. eauto.
  - unfold parent. rewrite removelast_last. eauto.
Qed.

Lemma target_inv from p m l :
  target from p m = Ok l → ∃ d c ro, l = d ++ [c] ∧ dir_at m d = Some ro.
Proof.
  unfold target. destruct (has_nul p); [done |]. case_bool_decide; [done |].
  destruct (walk _ _ _) as [d | e]; [| done].
  destruct (dir_at m d) as [ro |] eqn:Hd; [| done].
  destruct (_ || _); [done |].
  destruct (m !! (d ++ [_])) as [[ro' | bs] |]; [done | |].
  - intros [= <-]. eauto.
  - destruct ro; [done |]. intros [= <-]. eauto.
Qed.

Section Parents.

Variable E : env.

Lemma fs_op_parents o m : parents_ok m → parents_ok (fs_op E o m).2.
Proof.
  intros Hm. destruct o as [p | p texto]; simpl.
  - case_bool_decide; [done |]. by apply mkdir_walk_parents.
  - destruct (target _ p m) as [l | e] eqn:Ht; [| done].
    pose proof (target_not_dir _ _ _ _ Ht) as Hnd.
    destruct (target_inv _ _ _ _ Ht) as (d0 & c & ro & -> & Hd).
    assert (∀ bs, parents_ok (<[d0 ++ [c] := EFile bs]> m)) as H.
    { intros bs. apply (parents_ok_grows m _ (d0 ++ [c])); [done | | |].
      - by apply grows_insert_file.
      - intros l e. destruct (decide (d0 ++ [c] = l)) as [<- | Hne]; [by left |].
        rewrite lookup_insert_ne by done. eauto.
      - unfold parent. rewrite removelast_last. eauto. }
    destruct (encode _ texto); apply H.
Qed.

Lemma fs_exec_parents ops : ∀ m, parents_ok m → parents_ok (fs_exec E ops m).2.
Proof.
  induction ops as [| o r IH]; intros m Hm; [done |].
  rewrite fs_exec_cons. pose proof (fs_op_parents o m Hm) as Ho.
  destruct (fs_op E o m) as [[[] | e] m1]; simpl in Ho; [by apply IH | done].
Qed.

(** X15: the walk keeps the filesystem well formed: when every entry had
    a directory as its parent before, so has every entry after, whatever
    the tree and the outcome. *)
Theorem criar_estrutura_keeps_parents base d s :
  parents_ok (fs s) → parents_ok (fs (criar_estrutura E base d s).2).
Proof.
  intros Hm. rewrite criar_estrutura_plan.
  destruct (exec_fs E (plan base d) s) as [_ ->]. by apply fs_exec_parents.
Qed.

End Parents.

(** ** Concrete runs of the further properties *)

Definition E_utf8 : env := Env [] UTF8.

(** A directory [out] holding a file [a.txt]. *)
Definition com_out : state :=
  State {[ [py "out"] := EDir false;
           [py "out"; py "a.txt"] := EFile (bytes_of UTF8 (py "old")) ]} ∅ 0 [] [].

Definition arvore_exemplo : dict :=
  [ (py "a.txt", File (py "hello")); (py "sub", Dir [ (py "b.txt", File (py "")) ]) ].

Lemma makedirs_exist_ok_witness :
  makedirs E_utf8 (py "./out") com_out
    = (Ok tt, emit (EvMakedirs (py "./out")) com_out).
Proof.
  apply (makedirs_exist_ok E_utf8 (py "./out") com_out). vm_compute. reflexivity.
Defined.

Lemma dir_node_over_file_witness :
  criar_item E_utf8 (py "./out") (py "a.txt") (Dir []) com_out
    = (Raise FileExistsError,
       emit (EvMakedirs (join (py "./out") (py "a.txt"))) com_out).
Proof.
  apply (dir_node_over_file E_utf8 (py "./out") (py "a.txt") [] com_out
           (bytes_of UTF8 (py "old"))).
  - vm_compute. reflexivity.
  - vm_compute. reflexivity.
Defined.

Lemma file_node_over_dir_witness :
  ∃ e, criar_item E_utf8 (py "./") (py "out") (File (py "x")) com_out
       = (Raise e, emit (EvOpen (join (py "./") (py "out"))) com_out).
Proof.
  apply (file_node_over_dir E_utf8 (py "./") (py "out") (py "x") com_out).
  - vm_compute. reflexivity.
  - vm_compute. reflexivity.
Defined.


Lemma absolute_key_ignores_base_witness :
  criar_item E_utf8 (py "./out") (py "/x.txt") (File (py "1")) com_out
    = criar_item E_utf8 (py "elsewhere") (py "/x.txt") (File (py "1")) com_out.
Proof.
  apply (absolute_key_ignores_base E_utf8 (py "./out") (py "elsewhere") (py "/x.txt")
           (File (py "1")) com_out).
  vm_compute. reflexivity.
Defined.

Lemma ascii_text_is_utf8_witness :
  read_bytes (Env [] Latin1) (join (py "./out") (py "a.txt"))
    (fs (criar_item (Env [] Latin1) (py "./out") (py "a.txt") (File (py "hello"))
           com_out).2)
    = encode UTF8 (py "hello").
Proof.
  apply (ascii_text_is_utf8 (Env [] Latin1) (py "./out") (py "a.txt") (py "hello") com_out).
  - vm_compute. repeat constructor.
  - apply (outcome_ok (criar_item (Env [] Latin1) (py "./out") (py "a.txt")
                         (File (py "hello")) com_out) tt).
    vm_compute. reflexivity.
Defined.


Lemma criar_estrutura_frame_witness :
  fs (criar_estrutura E_utf8 (py "./") arvore_exemplo vazio).2 !! [py "outro.txt"]
  = fs vazio !! [py "outro.txt"].
Proof.
  apply (criar_estrutura_frame E_utf8 (py "./") [] arvore_exemplo vazio
           (criar_estrutura E_utf8 (py "./") arvore_exemplo vazio).2).
  - vm_compute. reflexivity.
  - vm_compute. reflexivity.
  - apply (outcome_ok (criar_estrutura E_utf8 (py "./") arvore_exemplo vazio) tt).
    vm_compute. reflexivity.
  - refine (bool_decide_unpack _ _). vm_compute. exact I.
Defined.


Lemma criar_estrutura_keeps_parents_witness :
  parents_ok (fs (criar_estrutura E_utf8 (py "./") arvore_exemplo vazio).2).
Proof.
  apply (criar_estrutura_keeps_parents E_utf8 (py "./") arvore_exemplo vazio).
  intros l e H. change ((∅ : gmap loc entry) !! l = Some e) in H.
  by rewrite lookup_empty in H.
Defined.
